(** * Semantic analysis of the Denk interpreter: symbols, scope tables, analyzer

    A shallow embedding of [sts.py] (symbols, [ScopedSymbolTable],
    [SemanticAnalyzer]) and of the node classes of [ast.py], together with
    the properties of the scoping rules.

    Python objects that are mutated and shared (symbols, scope tables) live
    in an explicit heap and are referred to by address.  Syntax-tree nodes
    are never mutated by the analyzer, so they are plain values: an object
    is a class name with its instance attributes, and reading an attribute
    that the object does not have raises [AttributeError], as in Python. *)

From stdpp Require Import gmap strings list fin_maps.
From Stdlib Require Import ZArith.

Local Open Scope string_scope.

(** ** Python values: syntax-tree nodes, tokens and their attributes *)

#[warnings="-register-all"]
Inductive pyval : Type :=
| VNone
| VInt (z : Z)
| VStr (s : string)
| VList (items : list pyval)
| VObj (cls : string) (attrs : list (string * pyval)).

(** [type(v).__name__] *)
Definition type_name (v : pyval) : string :=
  match v with
  | VNone => "NoneType"
  | VInt _ => "int"
  | VStr _ => "str"
  | VList _ => "list"
  | VObj cls _ => cls
  end.

(** The instance dictionary of an object, read by attribute name. *)
Fixpoint assoc (k : string) (l : list (string * pyval)) : option pyval :=
  match l with
  | [] => None
  | (k', v) :: l' => if String.eqb k k' then Some v else assoc k l'
  end.

(** [v != None] *)
Definition is_not_None (v : pyval) : bool :=
  match v with VNone => false | _ => true end.

(** ** Enumerations of the modules that are not part of the sources *)

(** Modelled from the spec: the [TokenType] enumeration of the [lex] module
    is not under src/; these are the three members that [sts.py] names, the
    scope kinds PROGRAM, PROCEDURE and FUNCTION of the spec. *)
Inductive TokenType : Type := PROGRAM | PROCEDURE | FUNCTION.

(** Modelled from the spec: the [ErrorCode] enumeration of the [base] module
    is not under src/; these are the three members that [sts.py] raises
    (DuplicateIdentifier, IdentifierNotFound, MissingReturn in the spec). *)
Inductive ErrorCode : Type := DUPLICATE_ID | ID_NOT_FOUND | MISSING_RETURN.

(** A value that can be stored in the [scopeType] field: a member of the
    enumeration, or the enumeration class [TokenType] itself. *)
Inductive kind_val : Type :=
| TokenType_class
| TokenType_member (m : TokenType).

Definition TokenType_eqb (a b : TokenType) : bool :=
  match a, b with
  | PROGRAM, PROGRAM | PROCEDURE, PROCEDURE | FUNCTION, FUNCTION => true
  | _, _ => false
  end.

(** Python's [==] on these values: enumeration members and the class are
    compared by identity. *)
Definition kind_eqb (a b : kind_val) : bool :=
  match a, b with
  | TokenType_class, TokenType_class => true
  | TokenType_member x, TokenType_member y => TokenType_eqb x y
  | _, _ => false
  end.

(** ** Exceptions *)

Inductive pyexn : Type :=
| SemanticError (error_code : ErrorCode) (token : pyval)
| AttributeError (type_of_object attr : string)
| TypeError (not_iterable : string)
| RecursionError.

(** ** The heap: symbols and scope tables *)

Abbreviation addr := nat (only parsing).

(** [Symbol] and its three subclasses.  [VarSymbol.type] refers to whatever
    symbol the type name resolved to ([None] when it did not resolve);
    [ProcedureSymbol.params] is the mutable list of parameter symbols. *)
Inductive Symbol : Type :=
| VarSymbol (name : string) (type : option addr)
| BuiltinTypeSymbol (name : string)
| ProcedureSymbol (name : string) (params : list addr).

Definition Symbol_name (s : Symbol) : string :=
  match s with
  | VarSymbol n _ | BuiltinTypeSymbol n | ProcedureSymbol n _ => n
  end.

Record ScopedSymbolTable : Type := mkScope {
  _symbols : gmap string addr;
  scope_name : string;
  scopeType : kind_val;
  scope_level : Z;
  enclosing_scope : option addr;
  hasReturnStatement : bool
}.

(** The analyzer object and everything it can reach. *)
Record State : Type := mkState {
  sym_heap : list Symbol;
  scope_heap : list ScopedSymbolTable;
  current_scope : option addr
}.

(** ** Computations: state threading with exceptions

    [Raised] keeps the state at the moment of the raise, since the side
    effects performed so far persist.  [NoFuel] is the exhaustion of the
    recursion budget of the model.  [Unmodelled] marks an input outside the
    model: an identifier that is not a string, or a dangling address. *)
Inductive outcome (A : Type) : Type :=
| Done (a : A) (st : State)
| Raised (e : pyexn) (st : State)
| NoFuel
| Unmodelled.
Arguments Done {A} a st.
Arguments Raised {A} e st.
Arguments NoFuel {A}.
Arguments Unmodelled {A}.

Definition M (A : Type) : Type := State -> outcome A.

Definition ret {A} (a : A) : M A := fun st => Done a st.

Definition bind {A B} (m : M A) (k : A -> M B) : M B := fun st =>
  match m st with
  | Done a st' => k a st'
  | Raised e st' => Raised e st'
  | NoFuel => NoFuel
  | Unmodelled => Unmodelled
  end.

Definition raise {A} (e : pyexn) : M A := fun st => Raised e st.
Definition unmodelled {A} : M A := fun _ => Unmodelled.
Definition out_of_fuel {A} : M A := fun _ => NoFuel.

Declare Scope py_scope.
Delimit Scope py_scope with py.
Notation "x <- m ;; k" := (bind m (fun x => k))
  (at level 100, m at next level, right associativity) : py_scope.
Notation "m ;; k" := (bind m (fun _ => k))
  (at level 100, right associativity) : py_scope.
Local Open Scope py_scope.

(** [for x in l: body(x)] *)
Fixpoint for_each {A} (l : list A) (body : A -> M unit) : M unit :=
  match l with
  | [] => ret tt
  | x :: l' => body x ;; for_each l' body
  end.

(** The instance attribute [a] of [node], when it has one. *)
Definition attr (node : pyval) (a : string) : option pyval :=
  match node with
  | VObj _ attrs => assoc a attrs
  | _ => None
  end.

(** [node.a] *)
Definition getattr (node : pyval) (a : string) : M pyval :=
  match attr node a with
  | Some v => ret v
  | None => raise (AttributeError (type_name node) a)
  end.

(** The items of [for x in v]: a list yields its elements, a string its
    characters, anything else is not iterable. *)
Definition iter (v : pyval) : M (list pyval) :=
  match v with
  | VList items => ret items
  | VStr s => ret ((fun c => VStr (String c EmptyString)) <$> String.list_ascii_of_string s)
  | _ => raise (TypeError (type_name v))
  end.

(** Identifiers are strings; any other value as a dictionary key is
    outside the model. *)
Definition as_name (v : pyval) : M string :=
  match v with
  | VStr s => ret s
  | _ => unmodelled
  end.

Definition get_current_scope : M (option addr) := fun st => Done (current_scope st) st.

Definition set_current_scope (c : option addr) : M unit := fun st =>
  Done tt {| sym_heap := sym_heap st; scope_heap := scope_heap st; current_scope := c |}.

(** [self.current_scope.attr]: the object whose attribute is read. *)
Definition current_scope_obj (attr : string) : M addr := fun st =>
  match current_scope st with
  | Some c => Done c st
  | None => Raised (AttributeError "NoneType" attr) st
  end.

Definition scope_at (a : addr) : M ScopedSymbolTable := fun st =>
  match scope_heap st !! a with
  | Some s => Done s st
  | None => Unmodelled
  end.

Definition symbol_at (a : addr) : M Symbol := fun st =>
  match sym_heap st !! a with
  | Some s => Done s st
  | None => Unmodelled
  end.

Definition put_scope (a : addr) (s : ScopedSymbolTable) : M unit := fun st =>
  Done tt {| sym_heap := sym_heap st;
             scope_heap := <[a := s]> (scope_heap st);
             current_scope := current_scope st |}.

(** Construction of a symbol object: a fresh address. *)
Definition new_Symbol (s : Symbol) : M addr := fun st =>
  Done (length (sym_heap st))
       {| sym_heap := sym_heap st ++ [s];
          scope_heap := scope_heap st;
          current_scope := current_scope st |}.

(** [proc_symbol.params.append(var_symbol)] *)
Definition params_append (proc_symbol var_symbol : addr) : M unit := fun st =>
  match sym_heap st !! proc_symbol with
  | Some (ProcedureSymbol n ps) =>
      Done tt {| sym_heap := <[proc_symbol := ProcedureSymbol n (ps ++ [var_symbol])]> (sym_heap st);
                 scope_heap := scope_heap st;
                 current_scope := current_scope st |}
  | Some (VarSymbol _ _) => Raised (AttributeError "VarSymbol" "params") st
  | Some (BuiltinTypeSymbol _) => Raised (AttributeError "BuiltinTypeSymbol" "params") st
  | None => Unmodelled
  end.

(** ** ScopedSymbolTable *)

Module ScopedSymbolTable_.

(** [insert]: [self._symbols[symbol.name] = symbol] *)
Definition insert (self symbol : addr) : M unit :=
  sym <- symbol_at symbol ;;
  s <- scope_at self ;;
  put_scope self {| _symbols := <[Symbol_name sym := symbol]> (_symbols s);
                    scope_name := scope_name s;
                    scopeType := scopeType s;
                    scope_level := scope_level s;
                    enclosing_scope := enclosing_scope s;
                    hasReturnStatement := hasReturnStatement s |}.

Definition _init_builtins (self : addr) : M unit :=
  b1 <- new_Symbol (BuiltinTypeSymbol "INTEGER") ;;
  insert self b1 ;;
  b2 <- new_Symbol (BuiltinTypeSymbol "REAL") ;;
  insert self b2.

(** [__init__]: the [scopeType] argument is received and not used; the field
    is set to the enumeration class.  [hasReturnStatement] is the class
    attribute, [False] until an instance sets it. *)
Definition __init__ (scope_name : string) (scopeType : kind_val)
    (scope_level : Z) (enclosing_scope : option addr) : M addr :=
  fun st =>
    let self := length (scope_heap st) in
    (_init_builtins self ;; ret self)
      {| sym_heap := sym_heap st;
         scope_heap := scope_heap st ++
           [ {| _symbols := ∅;
                scope_name := scope_name;
                scopeType := TokenType_class;
                scope_level := scope_level;
                enclosing_scope := enclosing_scope;
                hasReturnStatement := false |} ];
         current_scope := current_scope st |}.

(** [lookup]: the recursion follows [enclosing_scope]; [fuel] bounds the
    number of frames. *)
Fixpoint lookup_fuel (fuel : nat) (self : addr) (name : string)
    (current_scope_only : bool) : M (option addr) :=
  match fuel with
  | O => out_of_fuel
  | S fuel' =>
      s <- scope_at self ;;
      match _symbols s !! name with
      | Some symbol => ret (Some symbol)
      | None =>
          if current_scope_only then ret None
          else match enclosing_scope s with
               | Some e => lookup_fuel fuel' e name false
               | None => ret None
               end
      end
  end.

(** An enclosing scope is always constructed before the scope that refers
    to it, so the chain that starts at address [self] has at most
    [S self] tables. *)
Definition lookup (self : addr) (name : string) (current_scope_only : bool)
    : M (option addr) :=
  lookup_fuel (S self) self name current_scope_only.

(** [ScopeName]: no such attribute exists on the instance or on the class
    (the field is [scope_name]). *)
Definition ScopeName (self : addr) : M string :=
  raise (AttributeError "ScopedSymbolTable" "ScopeName").

(** [enclosingScope]: no such attribute either (the field is
    [enclosing_scope]). *)
Definition enclosingScope (self : addr) : M (option addr) :=
  raise (AttributeError "ScopedSymbolTable" "enclosingScope").

Definition set_hasReturnStatement (self : addr) (b : bool) : M unit :=
  s <- scope_at self ;;
  put_scope self {| _symbols := _symbols s;
                    scope_name := scope_name s;
                    scopeType := scopeType s;
                    scope_level := scope_level s;
                    enclosing_scope := enclosing_scope s;
                    hasReturnStatement := b |}.

(** Rendering of a symbol ([__str__] / [__repr__]): a variable renders its
    type, a procedure renders its parameters.  The symbol graph can be
    cyclic (a parameter whose type name is the procedure itself); a path of
    more symbols than the heap holds repeats one, and the rendering then
    recurses until [RecursionError]. *)
Fixpoint Symbol_str (fuel : nat) (a : addr) : M unit :=
  match fuel with
  | O => raise RecursionError
  | S fuel' =>
      sym <- symbol_at a ;;
      match sym with
      | BuiltinTypeSymbol _ => ret tt
      | VarSymbol _ None => ret tt
      | VarSymbol _ (Some t) => Symbol_str fuel' t
      | ProcedureSymbol _ params => for_each params (Symbol_str fuel')
      end
  end.

(** [__str__]: renders every symbol of the table. *)
Definition __str__ (self : addr) : M unit :=
  s <- scope_at self ;;
  fun st =>
    for_each (snd <$> map_to_list (_symbols s))
             (Symbol_str (S (length (sym_heap st)))) st.

End ScopedSymbolTable_.

(** ** SemanticAnalyzer *)

Module SemanticAnalyzer.

Import ScopedSymbolTable_.

(** [__init__]: the analyzer starts in a placeholder scope named "initial",
    at level 1, with no enclosing scope. *)
Definition __init__ : M unit :=
  initial <- ScopedSymbolTable_.__init__ "initial" (TokenType_member PROGRAM) 1 None ;;
  set_current_scope (Some initial).

(** [error]: raises [SemanticError] with the code and the token (the message
    is a rendering of the two). *)
Definition error {A} (error_code : ErrorCode) (token : pyval) : M A :=
  raise (SemanticError error_code token).

(** [self.current_scope = self.current_scope.enclosing_scope] *)
Definition leave_scope : M unit :=
  c <- current_scope_obj "enclosing_scope" ;;
  s <- scope_at c ;;
  set_current_scope (enclosing_scope s).

Section Handlers.

(** [self.visit], the dispatch of the base class, tied below. *)
Variable visit : pyval -> M unit.

Definition visit_Block (node : pyval) : M unit :=
  declarations <- getattr node "declarations" ;;
  items <- iter declarations ;;
  for_each items visit ;;
  compound_statement <- getattr node "compound_statement" ;;
  visit compound_statement.

Definition visit_Program (node : pyval) : M unit :=
  enclosing <- get_current_scope ;;
  global_scope <- ScopedSymbolTable_.__init__ "global" (TokenType_member PROGRAM) 1 enclosing ;;
  set_current_scope (Some global_scope) ;;
  block <- getattr node "block" ;;
  visit block ;;
  leave_scope.

Definition visit_Compound (node : pyval) : M unit :=
  children <- getattr node "children" ;;
  items <- iter children ;;
  for_each items visit.

Definition visit_NoOp (node : pyval) : M unit := ret tt.

Definition visit_Type (node : pyval) : M unit := ret tt.

Definition visit_BinOp (node : pyval) : M unit :=
  left <- getattr node "left" ;;
  visit left ;;
  right <- getattr node "right" ;;
  visit right.

(** The loop over the formal parameters, shared in shape by procedures and
    functions; they differ in the attribute that holds the type node
    ([type_node] for a procedure, [typeNode] for a function). *)
Definition declare_param (type_attr : string) (proc_symbol : addr)
    (param : pyval) : M unit :=
  scope <- current_scope_obj "lookup" ;;
  type_node <- getattr param type_attr ;;
  type_value <- getattr type_node "value" ;;
  type_name <- as_name type_value ;;
  param_type <- lookup scope type_name false ;;
  var_node <- getattr param "var_node" ;;
  var_value <- getattr var_node "value" ;;
  param_name <- as_name var_value ;;
  var_symbol <- new_Symbol (VarSymbol param_name param_type) ;;
  scope' <- current_scope_obj "insert" ;;
  insert scope' var_symbol ;;
  params_append proc_symbol var_symbol.

Definition visit_ProcedureDecl (node : pyval) : M unit :=
  proc_value <- getattr node "procName" ;;
  proc_name <- as_name proc_value ;;
  proc_symbol <- new_Symbol (ProcedureSymbol proc_name []) ;;
  scope <- current_scope_obj "insert" ;;
  insert scope proc_symbol ;;
  outer <- current_scope_obj "scope_level" ;;
  outer_table <- scope_at outer ;;
  enclosing <- get_current_scope ;;
  procedure_scope <- ScopedSymbolTable_.__init__ proc_name (TokenType_member PROCEDURE)
                       (scope_level outer_table + 1) enclosing ;;
  set_current_scope (Some procedure_scope) ;;
  params <- getattr node "params" ;;
  items <- iter params ;;
  for_each items (declare_param "type_node" proc_symbol) ;;
  blockNode <- getattr node "blockNode" ;;
  visit blockNode ;;
  leave_scope.

Definition visit_FunctionDecl (node : pyval) : M unit :=
  func_value <- getattr node "funcName" ;;
  funcName <- as_name func_value ;;
  funcSymbol <- new_Symbol (ProcedureSymbol funcName []) ;;
  scope <- current_scope_obj "insert" ;;
  insert scope funcSymbol ;;
  outer <- current_scope_obj "scope_level" ;;
  outer_table <- scope_at outer ;;
  enclosing <- get_current_scope ;;
  procedureScope <- ScopedSymbolTable_.__init__ funcName (TokenType_member FUNCTION)
                      (scope_level outer_table + 1) enclosing ;;
  set_current_scope (Some procedureScope) ;;
  params <- getattr node "params" ;;
  items <- iter params ;;
  for_each items (declare_param "typeNode" funcSymbol) ;;
  returnType <- getattr node "returnType" ;;
  visit_Type returnType ;;
  blockNode <- getattr node "blockNode" ;;
  visit blockNode ;;
  (* "{}".format(procedureScope): rendered whether or not logging is on *)
  __str__ procedureScope ;;
  table <- scope_at procedureScope ;;
  (if negb (hasReturnStatement table)
   then token <- getattr node "token" ;; error MISSING_RETURN token
   else ret tt) ;;
  c <- current_scope_obj "enclosingScope" ;;
  e <- enclosingScope c ;;
  set_current_scope e.

Definition visit_VarDecl (node : pyval) : M unit :=
  type_node <- getattr node "type_node" ;;
  type_value <- getattr type_node "value" ;;
  type_name <- as_name type_value ;;
  scope <- current_scope_obj "lookup" ;;
  type_symbol <- lookup scope type_name false ;;
  var_node <- getattr node "var_node" ;;
  var_value <- getattr var_node "value" ;;
  var_name <- as_name var_value ;;
  var_symbol <- new_Symbol (VarSymbol var_name type_symbol) ;;
  scope' <- current_scope_obj "lookup" ;;
  found <- lookup scope' var_name true ;;
  (match found with
   | Some _ =>
       var_node' <- getattr node "var_node" ;;
       token <- getattr var_node' "token" ;;
       error DUPLICATE_ID token
   | None => ret tt
   end) ;;
  scope'' <- current_scope_obj "insert" ;;
  insert scope'' var_symbol.

Definition visit_Assign (node : pyval) : M unit :=
  left <- getattr node "left" ;;
  var_value <- getattr left "value" ;;
  currentScope <- current_scope_obj "scopeType" ;;
  table <- scope_at currentScope ;;
  is_return <-
    (if kind_eqb (scopeType table) (TokenType_member FUNCTION)
     then own_name <- ScopeName currentScope ;;
          varName <- as_name var_value ;;
          ret (String.eqb varName own_name)
     else ret false) ;;
  (if is_return : bool
   then set_hasReturnStatement currentScope true
   else
     varName <- as_name var_value ;;
     scope <- current_scope_obj "lookup" ;;
     symbol <- lookup scope varName false ;;
     match symbol with
     | None => token <- getattr node "token" ;; error ID_NOT_FOUND token
     | Some _ => ret tt
     end) ;;
  right <- getattr node "right" ;;
  visit right.

Definition visit_Var (node : pyval) : M unit :=
  var_value <- getattr node "value" ;;
  var_name <- as_name var_value ;;
  scope <- current_scope_obj "lookup" ;;
  var_symbol <- lookup scope var_name false ;;
  match var_symbol with
  | None => token <- getattr node "token" ;; error ID_NOT_FOUND token
  | Some _ => ret tt
  end.

Definition visit_Num (node : pyval) : M unit := ret tt.

Definition visit_UnaryOp (node : pyval) : M unit :=
  right <- getattr node "right" ;;
  visit right.

Definition visit_ProcedureCall (node : pyval) : M unit :=
  actual_params <- getattr node "actual_params" ;;
  items <- iter actual_params ;;
  for_each items visit.

Definition visit_Call (node : pyval) : M unit :=
  actual_params <- getattr node "actual_params" ;;
  items <- iter actual_params ;;
  for_each items visit.

Definition visit_Condition (node : pyval) : M unit :=
  condition <- getattr node "condition" ;;
  visit condition ;;
  then_ <- getattr node "then" ;;
  visit then_ ;;
  myElse <- getattr node "myElse" ;;
  if is_not_None myElse
  then myElse' <- getattr node "myElse" ;; visit myElse'
  else ret tt.

Definition visit_Then (node : pyval) : M unit :=
  child <- getattr node "child" ;;
  visit child.

Definition visit_MyElse (node : pyval) : M unit :=
  child <- getattr node "child" ;;
  visit child.

Definition visit_While (node : pyval) : M unit :=
  condition <- getattr node "condition" ;;
  visit condition.

Definition visit_MyDo (node : pyval) : M unit :=
  child <- getattr node "child" ;;
  visit child.

(** The [visit_*] methods that the class defines, by the class name they
    handle. *)
Definition methods : list (string * (pyval -> M unit)) :=
  [ ("Block", visit_Block); ("Program", visit_Program);
    ("Compound", visit_Compound); ("NoOp", visit_NoOp);
    ("Type", visit_Type); ("BinOp", visit_BinOp);
    ("ProcedureDecl", visit_ProcedureDecl);
    ("FunctionDecl", visit_FunctionDecl);
    ("VarDecl", visit_VarDecl); ("Assign", visit_Assign);
    ("Var", visit_Var); ("Num", visit_Num); ("UnaryOp", visit_UnaryOp);
    ("ProcedureCall", visit_ProcedureCall); ("Call", visit_Call);
    ("Condition", visit_Condition); ("Then", visit_Then);
    ("MyElse", visit_MyElse); ("While", visit_While);
    ("MyDo", visit_MyDo) ].

Fixpoint find_method (cls : string) (ms : list (string * (pyval -> M unit)))
    : option (pyval -> M unit) :=
  match ms with
  | [] => None
  | (n, m) :: ms' => if String.eqb cls n then Some m else find_method cls ms'
  end.

(** Modelled from the spec: [NodeVisitor.visit] of the [astvisitor] module is
    not under src/.  It routes a node to the handler named after the node's
    class, and a class without a handler is silently skipped. *)
Definition dispatch (node : pyval) : M unit :=
  match find_method (type_name node) methods with
  | Some method => method node
  | None => ret tt
  end.

End Handlers.

(** [visit]: one unit of [fuel] per nested call of [self.visit]. *)
Fixpoint visit (fuel : nat) (node : pyval) : M unit :=
  match fuel with
  | O => out_of_fuel
  | S fuel' => dispatch (visit fuel') node
  end.

End SemanticAnalyzer.

(** ** The node classes of [ast.py]

    [Token] objects come from a module that is not among the sources; a
    node constructor only reads their [value]. *)
Module Ast.

Definition Num (token : pyval) : M pyval :=
  value <- getattr token "value" ;;
  ret (VObj "Num" [("token", token); ("value", value)]).

Definition BinOp (left op right : pyval) : pyval :=
  VObj "BinOp" [("left", left); ("token", op); ("op", op); ("right", right)].

Definition UnaryOp (op expr : pyval) : pyval :=
  VObj "UnaryOp" [("token", op); ("op", op); ("expr", expr)].

End Ast.

(** ** Nodes of the classes that the parser module defines

    Those classes are not among the sources; a node is built here with
    exactly the attributes that the analyzer reads from it. *)
Module Node.

Definition Token (type : string) (value : pyval) : pyval :=
  VObj "Token" [("type", VStr type); ("value", value)].

Definition Var (name : string) : pyval :=
  VObj "Var" [("token", Token "ID" (VStr name)); ("value", VStr name)].

Definition Type_ (name : string) : pyval :=
  VObj "Type" [("token", Token name (VStr name)); ("value", VStr name)].

Definition NoOp : pyval := VObj "NoOp" [].

Definition Compound (children : list pyval) : pyval :=
  VObj "Compound" [("children", VList children)].

Definition Block (declarations : list pyval) (compound_statement : pyval) : pyval :=
  VObj "Block" [("declarations", VList declarations);
                ("compound_statement", compound_statement)].

Definition Program (name : string) (block : pyval) : pyval :=
  VObj "Program" [("name", VStr name); ("block", block)].

Definition VarDecl (var_node type_node : pyval) : pyval :=
  VObj "VarDecl" [("var_node", var_node); ("type_node", type_node)].

Definition Param (var_node type_node : pyval) : pyval :=
  VObj "Param" [("var_node", var_node); ("type_node", type_node)].

Definition ProcedureDecl (procName : string) (params : list pyval)
    (blockNode : pyval) : pyval :=
  VObj "ProcedureDecl" [("procName", VStr procName); ("params", VList params);
                        ("blockNode", blockNode)].

Definition FunctionDecl (funcName : string) (params : list pyval)
    (returnType blockNode : pyval) : pyval :=
  VObj "FunctionDecl" [("funcName", VStr funcName); ("params", VList params);
                       ("token", Token "ID" (VStr funcName));
                       ("returnType", returnType); ("blockNode", blockNode)].

Definition Assign (left right : pyval) : pyval :=
  VObj "Assign" [("left", left); ("token", Token "ASSIGN" (VStr ":="));
                 ("op", Token "ASSIGN" (VStr ":=")); ("right", right)].

Definition IntNum (z : Z) : pyval :=
  VObj "Num" [("token", Token "INTEGER_CONST" (VInt z)); ("value", VInt z)].

End Node.

(** ** Vocabulary of the properties *)

Local Open Scope nat_scope.

(** The state in which a run ended, normally or by an exception. *)
Definition ends {A} (o : outcome A) (st' : State) : Prop :=
  match o with
  | Done _ s | Raised _ s => s = st'
  | NoFuel | Unmodelled => False
  end.

(** The state before anything is constructed. *)
Definition empty_state : State :=
  {| sym_heap := []; scope_heap := []; current_scope := None |}.

(** What never changes in a scope table once it is constructed: every field
    but the dictionary, and the dictionary only gains keys. *)
Record stable (s s' : ScopedSymbolTable) : Prop := mkStable {
  stable_name : scope_name s' = scope_name s;
  stable_kind : scopeType s' = scopeType s;
  stable_level : scope_level s' = scope_level s;
  stable_enclosing : enclosing_scope s' = enclosing_scope s;
  stable_flag : hasReturnStatement s' = hasReturnStatement s;
  stable_keys : ∀ k, is_Some (_symbols s !! k) → is_Some (_symbols s' !! k)
}.

(** A table as the constructor leaves it and as it stays: the kind field
    holds the enumeration class, no return was recorded, and both builtin
    type names are bound. *)
Record scope_ok (s : ScopedSymbolTable) : Prop := mkScopeOk {
  ok_kind : scopeType s = TokenType_class;
  ok_flag : hasReturnStatement s = false;
  ok_INTEGER : is_Some (_symbols s !! "INTEGER");
  ok_REAL : is_Some (_symbols s !! "REAL")
}.

Definition scopes_ok (st : State) : Prop :=
  ∀ a s, scope_heap st !! a = Some s → scope_ok s.

(** An enclosing scope is older than the scope that refers to it: the
    constructor can only be given a table that already exists. *)
Definition chain_wf (st : State) : Prop :=
  ∀ a s e, scope_heap st !! a = Some s → enclosing_scope s = Some e → e < a.

(** Well-formed references: the chains are, and the current scope exists. *)
Record wf (st : State) : Prop := mkWf {
  wf_chain : chain_wf st;
  wf_current : ∀ c, current_scope st = Some c → c < length (scope_heap st)
}.

(** The scope tables that the analyzer can reach: the current scope and the
    chain of its enclosing scopes. *)
Inductive reachable (st : State) : addr → Prop :=
| reach_current c : current_scope st = Some c → reachable st c
| reach_enclosing a s e :
    reachable st a → scope_heap st !! a = Some s →
    enclosing_scope s = Some e → reachable st e.

(** How a state may differ from an earlier one after a piece of analysis
    that ran with current scope [c]: symbols below [ns] and scope tables
    below [nc] other than [c] are untouched, heaps only grow, tables stay
    [stable]. *)
Record evolves (ns nc : nat) (c : option addr) (st st' : State) : Prop := mkEvolves {
  ev_sym_len : length (sym_heap st) ≤ length (sym_heap st');
  ev_sym_old : ∀ a, a < ns → sym_heap st' !! a = sym_heap st !! a;
  ev_scope_len : length (scope_heap st) ≤ length (scope_heap st');
  ev_scope_old : ∀ a, a < nc → Some a ≠ c →
    scope_heap st' !! a = scope_heap st !! a;
  ev_stable : ∀ a s, scope_heap st !! a = Some s →
    ∃ s', scope_heap st' !! a = Some s' ∧ stable s s';
  ev_ok : scopes_ok st → scopes_ok st';
  ev_wf : wf st → wf st'
}.

(** A computation that runs in scope [c], respects [evolves] and, when it
    returns, has left the current scope where it was. *)
Definition sound (ns nc : nat) (c : option addr) {A} (m : M A) : Prop :=
  ∀ st, ns ≤ length (sym_heap st) → nc ≤ length (scope_heap st) →
        current_scope st = c →
    match m st with
    | Done _ st' => evolves ns nc c st st' ∧ current_scope st' = c
    | Raised _ st' => evolves ns nc c st st'
    | NoFuel | Unmodelled => True
    end.

(** The tail of a handler that runs inside the pushed scope [new] and ends
    by leaving it for [c]. *)
Definition sound_inside (ns nc : nat) (c : option addr) (new : addr)
    {A} (m : M A) : Prop :=
  ∀ st, ns ≤ length (sym_heap st) → nc ≤ length (scope_heap st) →
        current_scope st = Some new →
        (∃ s, scope_heap st !! new = Some s ∧ enclosing_scope s = c) →
    match m st with
    | Done _ st' => evolves ns nc (Some new) st st' ∧ current_scope st' = c
    | Raised _ st' => evolves ns nc (Some new) st st'
    | NoFuel | Unmodelled => True
    end.

(** The table [s] after [name] is bound to the symbol at [a]. *)
Definition with_symbol (s : ScopedSymbolTable) (name : string) (a : addr)
    : ScopedSymbolTable :=
  {| _symbols := <[name := a]> (_symbols s);
     scope_name := scope_name s;
     scopeType := scopeType s;
     scope_level := scope_level s;
     enclosing_scope := enclosing_scope s;
     hasReturnStatement := hasReturnStatement s |}.

(** The state after a symbol object is constructed. *)
Definition with_new_symbol (sym : Symbol) (st : State) : State :=
  {| sym_heap := sym_heap st ++ [sym];
     scope_heap := scope_heap st;
     current_scope := current_scope st |}.

(** The state after the table at [a] is replaced. *)
Definition with_scope (a : addr) (s : ScopedSymbolTable) (st : State) : State :=
  {| sym_heap := sym_heap st;
     scope_heap := <[a := s]> (scope_heap st);
     current_scope := current_scope st |}.

(** A computation that only reads the state; [Q] holds of what it returns. *)
Definition pure_with {A} (m : M A) (Q : A → Prop) : Prop :=
  ∀ st, match m st with
        | Done a st' => st' = st ∧ Q a
        | Raised _ st' => st' = st
        | NoFuel | Unmodelled => True
        end.

(** The state that the scope-table constructor leaves. *)
Definition constructed (scope_name : string) (scope_level : Z)
    (enclosing_scope : option addr) (st : State) : State :=
  {| sym_heap := sym_heap st ++
       [BuiltinTypeSymbol "INTEGER"; BuiltinTypeSymbol "REAL"];
     scope_heap := scope_heap st ++
       [ {| _symbols := <["REAL" := S (length (sym_heap st))]>
                          (<["INTEGER" := length (sym_heap st)]> ∅);
            scope_name := scope_name;
            scopeType := TokenType_class;
            scope_level := scope_level;
            enclosing_scope := enclosing_scope;
            hasReturnStatement := false |} ];
     current_scope := current_scope st |}.

(** The state in which the body of a program, procedure or function is
    analyzed: a table is constructed with the current scope as its
    enclosing scope, and becomes the current scope. *)
Definition entered (name : string) (level : Z) (st : State) : State :=
  {| sym_heap := sym_heap (constructed name level (current_scope st) st);
     scope_heap := scope_heap (constructed name level (current_scope st) st);
     current_scope := Some (length (scope_heap st)) |}.

(** The state after the symbol of a procedure or function named [p] is
    constructed and inserted into the current scope [c], whose table is
    [sc]. *)
Definition declared (p : string) (c : addr) (sc : ScopedSymbolTable)
    (st : State) : State :=
  with_scope c (with_symbol sc p (length (sym_heap st)))
    (with_new_symbol (ProcedureSymbol p []) st).

(** What the three scoped handlers do once their scope is pushed. *)
Definition Program_inside (visit : pyval → M unit) (node : pyval) : M unit :=
  block <- getattr node "block" ;;
  visit block ;;
  SemanticAnalyzer.leave_scope.

Definition ProcedureDecl_body (visit : pyval → M unit) (node : pyval) : M unit :=
  blockNode <- getattr node "blockNode" ;;
  visit blockNode ;;
  SemanticAnalyzer.leave_scope.

Definition ProcedureDecl_inside (visit : pyval → M unit) (node : pyval)
    (proc_symbol : addr) : M unit :=
  params <- getattr node "params" ;;
  items <- iter params ;;
  for_each items (SemanticAnalyzer.declare_param "type_node" proc_symbol) ;;
  ProcedureDecl_body visit node.

Definition FunctionDecl_inside (visit : pyval → M unit) (node : pyval)
    (funcSymbol procedureScope : addr) : M unit :=
  params <- getattr node "params" ;;
  items <- iter params ;;
  for_each items (SemanticAnalyzer.declare_param "typeNode" funcSymbol) ;;
  returnType <- getattr node "returnType" ;;
  SemanticAnalyzer.visit_Type returnType ;;
  blockNode <- getattr node "blockNode" ;;
  visit blockNode ;;
  ScopedSymbolTable_.__str__ procedureScope ;;
  table <- scope_at procedureScope ;;
  (if negb (hasReturnStatement table)
   then token <- getattr node "token" ;;
        SemanticAnalyzer.error MISSING_RETURN token
   else ret tt) ;;
  c <- current_scope_obj "enclosingScope" ;;
  e <- ScopedSymbolTable_.enclosingScope c ;;
  set_current_scope e.

(** A formal parameter node that declares [x] with the type name [ty]. *)
Definition param_shape (param : pyval) (decl : string * string) : Prop :=
  ∃ var_node type_node,
    attr param "var_node" = Some var_node ∧
    attr var_node "value" = Some (VStr decl.1) ∧
    attr param "type_node" = Some type_node ∧
    attr type_node "value" = Some (VStr decl.2).

(** The state after one formal parameter is declared in scope [new], whose
    table was [snew]: a variable symbol is constructed, bound in the table,
    and appended to the parameters of the procedure symbol at [psym]. *)
Definition param_declared (psym : addr) (p : string) (ps : list addr)
    (new : addr) (snew : ScopedSymbolTable) (x : string) (t : option addr)
    (st : State) : State :=
  {| sym_heap := <[psym := ProcedureSymbol p (ps ++ [length (sym_heap st)])]>
                   (sym_heap st ++ [VarSymbol x t])%list;
     scope_heap := <[new := with_symbol snew x (length (sym_heap st))]>
                     (scope_heap st);
     current_scope := Some new |}.

(** Expression trees as the constructors of [ast.py] build them, with their
    depth and whether a [UnaryOp] occurs in them. *)
Inductive ast_expr : pyval → nat → bool → Prop :=
| ast_Num token value :
    attr token "value" = Some value →
    ast_expr (VObj "Num" [("token", token); ("value", value)]) 0 false
| ast_BinOp left op right dl dr ul ur :
    ast_expr left dl ul → ast_expr right dr ur →
    ast_expr (Ast.BinOp left op right) (S (max dl dr)) (ul || ur)
| ast_UnaryOp op expr d u :
    ast_expr expr d u →
    ast_expr (Ast.UnaryOp op expr) (S d) true.

(** Where an exception leaves the analyzer: a computation that runs in
    scope [c], with [nc] tables or more on the heap, and raises, leaves the
    current scope at [c] or at a table at address [nc] or above. *)
Definition raises_in (nc : nat) (c : option addr) {A} (m : M A) : Prop :=
  ∀ st, nc ≤ length (scope_heap st) → current_scope st = c →
  ∀ e st', m st = Raised e st' →
    current_scope st' = c ∨ ∃ a, current_scope st' = Some a ∧ nc ≤ a.

(** ** A whole analysis, and the programs used as examples *)

(** Constructing the analyzer and visiting the root of a tree. *)
Definition analyze (fuel : nat) (root : pyval) : outcome unit :=
  (SemanticAnalyzer.__init__ ;; SemanticAnalyzer.visit fuel root) empty_state.

Module Example.

Import Node.

(** [program P; begin end.] *)
Definition empty_program : pyval :=
  Program "P" (Block [] (Compound [NoOp])).

(** [function f : INTEGER; begin f := 1 end;] *)
Definition returning_function : pyval :=
  FunctionDecl "f" [] (Type_ "INTEGER")
    (Block [] (Compound [Assign (Var "f") (IntNum 1)])).

(** [program P; function f : INTEGER; begin f := 1 end; begin end.] *)
Definition program_with_function : pyval :=
  Program "P" (Block [returning_function] (Compound [NoOp])).

(** [var x : INTEGER;] *)
Definition declare_x : pyval := VarDecl (Var "x") (Type_ "INTEGER").

(** [program P; var x : INTEGER; begin x := 1 end.] *)
Definition program_assigning_x : pyval :=
  Program "P" (Block [declare_x] (Compound [Assign (Var "x") (IntNum 1)])).

(** [program P; begin y := 1 end.] *)
Definition program_assigning_undeclared : pyval :=
  Program "P" (Block [] (Compound [Assign (Var "y") (IntNum 1)])).

(** [program P; var x : INTEGER; var x : REAL; begin end.] *)
Definition program_with_duplicate : pyval :=
  Program "P" (Block [declare_x; VarDecl (Var "x") (Type_ "REAL")]
                 (Compound [NoOp])).

(** [procedure p(a : INTEGER; b : REAL); begin end;] *)
Definition procedure_p : pyval :=
  ProcedureDecl "p"
    [Param (Var "a") (Type_ "INTEGER"); Param (Var "b") (Type_ "REAL")]
    (Block [] (Compound [NoOp])).

(** [program P; procedure p(a : INTEGER; b : REAL); begin end; begin end.] *)
Definition program_with_procedure : pyval :=
  Program "P" (Block [procedure_p] (Compound [NoOp])).

(** The state of a new analyzer, in its placeholder scope. *)
Definition initial : State := entered "initial" 1 empty_state.

(** The state inside the scope of a program, before its block is visited. *)
Definition global : State := entered "global" 1 initial.

(** The table of the program scope in [global]. *)
Definition global_table : ScopedSymbolTable :=
  {| _symbols := <["REAL" := 3]> (<["INTEGER" := 2]> ∅);
     scope_name := "global";
     scopeType := TokenType_class;
     scope_level := 1;
     enclosing_scope := Some 0;
     hasReturnStatement := false |}.

(** [global] after [var x : INTEGER] was declared. *)
Definition global_with_x : State :=
  with_scope 1 (with_symbol global_table "x" 4)
    (with_new_symbol (VarSymbol "x" (Some 2)) global).

End Example.

(** * Properties *)

Import ScopedSymbolTable_ SemanticAnalyzer.

(** ** Runs of composed computations *)

Lemma bind_Done {A B} (m : M A) (k : A → M B) st b st' :
  bind m k st = Done b st' →
  ∃ a st1, m st = Done a st1 ∧ k a st1 = Done b st'.
Proof.
  unfold bind. destruct (m st) as [a st1| | |]; try discriminate. eauto.
Qed.

Lemma bind_Raised {A B} (m : M A) (k : A → M B) st e st' :
  bind m k st = Raised e st' →
  m st = Raised e st' ∨ ∃ a st1, m st = Done a st1 ∧ k a st1 = Raised e st'.
Proof.
  unfold bind. destruct (m st) as [a st1|e1 st1| |]; try discriminate.
  - right. eauto.
  - intros [= -> ->]. by left.
Qed.

Lemma stable_refl s : stable s s.
Proof. by constructor. Qed.

Lemma stable_trans s1 s2 s3 : stable s1 s2 → stable s2 s3 → stable s1 s3.
Proof.
  intros [] []. constructor; try congruence. auto.
Qed.

Lemma evolves_refl ns nc c st : evolves ns nc c st st.
Proof.
  constructor; auto. intros a s Hs. exists s. split; [done | apply stable_refl].
Qed.

Lemma evolves_trans ns nc c st1 st2 st3 :
  nc ≤ length (scope_heap st1) →
  evolves ns nc c st1 st2 → evolves ns nc c st2 st3 → evolves ns nc c st1 st3.
Proof.
  intros Hnc [] []. constructor; auto.
  - lia.
  - intros a Ha. rewrite ev_sym_old1, ev_sym_old0; auto.
  - lia.
  - intros a Ha Hc. rewrite ev_scope_old1, ev_scope_old0; auto.
  - intros a s Hs. destruct (ev_stable0 a s Hs) as (s' & Hs' & Hst).
    destruct (ev_stable1 a s' Hs') as (s'' & Hs'' & Hst').
    exists s''. split; [done | by eapply stable_trans].
Qed.

(** ** Computations that only read *)

Lemma pure_with_weaken {A} (m : M A) (Q Q' : A → Prop) :
  pure_with m Q → (∀ a, Q a → Q' a) → pure_with m Q'.
Proof.
  intros Hm HQ st. specialize (Hm st). destruct (m st); intuition.
Qed.

Lemma pure_ret {A} (a : A) : pure_with (ret a) (λ x, x = a).
Proof. by intros st. Qed.

Lemma pure_raise {A} e (Q : A → Prop) : pure_with (raise e) Q.
Proof. by intros st. Qed.

Lemma pure_bind {A B} (m : M A) (k : A → M B) Q Q' :
  pure_with m Q → (∀ a, Q a → pure_with (k a) Q') → pure_with (bind m k) Q'.
Proof.
  intros Hm Hk st. unfold bind. specialize (Hm st).
  destruct (m st) as [a st1|e st1| |]; try done.
  destruct Hm as [-> Ha]. apply (Hk a Ha).
Qed.

Lemma pure_for_each {A} (l : list A) (body : A → M unit) :
  (∀ x, pure_with (body x) (λ _, True)) → pure_with (for_each l body) (λ _, True).
Proof.
  intros Hb. induction l as [|x l IH]; simpl.
  - by intros st.
  - eapply pure_bind; [apply Hb | intros _ _; apply IH].
Qed.

Lemma pure_getattr node a : pure_with (getattr node a) (λ v, attr node a = Some v).
Proof. intros st. unfold getattr. by destruct (attr node a). Qed.

Lemma pure_iter v : pure_with (iter v) (λ _, True).
Proof. intros st. by destruct v. Qed.

Lemma pure_as_name v : pure_with (as_name v) (λ s, v = VStr s).
Proof. intros st. by destruct v. Qed.

Lemma pure_scope_at a :
  ∀ st, match scope_at a st with
        | Done s st' => st' = st ∧ scope_heap st !! a = Some s
        | Raised _ _ => False
        | NoFuel | Unmodelled => True
        end.
Proof. intros st. unfold scope_at. by destruct (scope_heap st !! a). Qed.

(** [lookup] reads the tables and raises nothing. *)
Lemma lookup_fuel_pure fuel : ∀ self name only st,
  match lookup_fuel fuel self name only st with
  | Done _ st' => st' = st
  | Raised _ _ => False
  | NoFuel | Unmodelled => True
  end.
Proof.
  induction fuel as [|fuel IH]; intros self name only st; simpl; [done|].
  unfold bind, scope_at. destruct (scope_heap st !! self) as [s|]; [|done].
  destruct (_symbols s !! name); [done|].
  destruct only; [done|]. destruct (enclosing_scope s); [apply IH | done].
Qed.

Lemma pure_lookup self name only : pure_with (lookup self name only) (λ _, True).
Proof.
  intros st. pose proof (lookup_fuel_pure (S self) self name only st) as H.
  unfold lookup. destruct (lookup_fuel _ _ _ _ st); intuition.
Qed.

Lemma pure_Symbol_str fuel : ∀ a, pure_with (Symbol_str fuel a) (λ _, True).
Proof.
  induction fuel as [|fuel IH]; intros a; simpl; [apply pure_raise|].
  intros st. unfold bind, symbol_at. destruct (sym_heap st !! a) as [sym|]; [|done].
  destruct sym as [n [t|]|n|n ps]; try done.
  - apply IH.
  - apply pure_for_each, IH.
Qed.

Lemma pure_str self : pure_with (__str__ self) (λ _, True).
Proof.
  intros st. unfold __str__, bind.
  pose proof (pure_scope_at self st) as Hs.
  destruct (scope_at self st) as [s st1| | |]; try done.
  destruct Hs as [-> _]. apply pure_for_each. intros x. apply pure_Symbol_str.
Qed.

(** ** Rules for [sound] *)

Section Rules.

Context (ns nc : nat) (c : option addr).

Lemma pure_sound {A} (m : M A) Q : pure_with m Q → sound ns nc c m.
Proof.
  intros Hm st _ _ Hc. specialize (Hm st).
  destruct (m st) as [a st'|e st'| |]; try done.
  - destruct Hm as [-> _]. split; [apply evolves_refl | done].
  - subst. apply evolves_refl.
Qed.

Lemma sound_bind {A B} (m : M A) (k : A → M B) :
  sound ns nc c m → (∀ a, sound ns nc c (k a)) → sound ns nc c (bind m k).
Proof.
  intros Hm Hk st Hns Hnc Hc. unfold bind. specialize (Hm st Hns Hnc Hc).
  destruct (m st) as [a st1|e st1| |]; try done.
  destruct Hm as [Hev Hc1].
  assert (ns ≤ length (sym_heap st1)) as Hns1
    by (pose proof (ev_sym_len _ _ _ _ _ Hev); lia).
  assert (nc ≤ length (scope_heap st1)) as Hnc1
    by (pose proof (ev_scope_len _ _ _ _ _ Hev); lia).
  specialize (Hk a st1 Hns1 Hnc1 Hc1).
  destruct (k a st1) as [b st2|e st2| |]; try done.
  - destruct Hk as [Hev2 Hc2]. split; [by eapply evolves_trans | done].
  - by eapply evolves_trans.
Qed.

Lemma sound_bind_pure {A B} (m : M A) (k : A → M B) Q :
  pure_with m Q → (∀ a, Q a → sound ns nc c (k a)) → sound ns nc c (bind m k).
Proof.
  intros Hm Hk st Hns Hnc Hc. unfold bind. specialize (Hm st).
  destruct (m st) as [a st1|e st1| |]; try done.
  - destruct Hm as [-> Ha]. by apply Hk.
  - subst. apply evolves_refl.
Qed.

Lemma sound_ret {A} (a : A) : sound ns nc c (ret a).
Proof. eapply pure_sound, pure_ret. Qed.

Lemma sound_raise {A} e : sound ns nc c (@raise A e).
Proof. eapply pure_sound, (pure_raise _ (λ _, True)). Qed.

Lemma sound_on_current {B} attr (k : addr → M B) :
  (∀ a, c = Some a → sound ns nc c (k a)) →
  sound ns nc c (bind (current_scope_obj attr) k).
Proof.
  intros Hk st Hns Hnc Hc. unfold bind, current_scope_obj.
  destruct (current_scope st) as [a|] eqn:Ha.
  - apply Hk; congruence.
  - apply evolves_refl.
Qed.

Lemma sound_get_current {B} (k : option addr → M B) :
  sound ns nc c (k c) → sound ns nc c (bind get_current_scope k).
Proof.
  intros Hk st Hns Hnc Hc. unfold bind, get_current_scope. rewrite Hc.
  by apply Hk.
Qed.

Lemma sound_for_each {A} (l : list A) (body : A → M unit) :
  (∀ x, sound ns nc c (body x)) → sound ns nc c (for_each l body).
Proof.
  intros Hb. induction l as [|x l IH]; simpl.
  - apply sound_ret.
  - apply sound_bind; [apply Hb | intros _; apply IH].
Qed.

Lemma sound_new_Symbol s : sound ns nc c (new_Symbol s).
Proof.
  intros st Hns Hnc Hc. unfold new_Symbol. split; [|done].
  constructor; simpl; auto.
  - rewrite length_app. lia.
  - intros a Ha. apply lookup_app_l. lia.
  - intros a s' Hs'. exists s'. split; [done | apply stable_refl].
  - intros [] . by constructor.
Qed.

End Rules.

(** ** The scope-table operations *)

Lemma insert_key_stable s k x :
  stable s {| _symbols := <[k := x]> (_symbols s);
              scope_name := scope_name s;
              scopeType := scopeType s;
              scope_level := scope_level s;
              enclosing_scope := enclosing_scope s;
              hasReturnStatement := hasReturnStatement s |}.
Proof.
  constructor; simpl; try done.
  intros k' Hk'. destruct (decide (k = k')) as [->|Hne].
  - rewrite lookup_insert_eq. eauto.
  - by rewrite lookup_insert_ne.
Qed.

Lemma stable_ok s s' : stable s s' → scope_ok s → scope_ok s'.
Proof.
  intros [] []. constructor; try congruence; auto.
Qed.

(** Replacing the table at the current scope by a [stable] successor. *)
Lemma evolves_put ns nc a s s' st :
  scope_heap st !! a = Some s → stable s s' →
  evolves ns nc (Some a) st
    {| sym_heap := sym_heap st;
       scope_heap := <[a := s']> (scope_heap st);
       current_scope := current_scope st |}.
Proof.
  intros Ha Hst. pose proof (lookup_lt_Some _ _ _ Ha) as Hlt.
  constructor; simpl; auto.
  - by rewrite length_insert.
  - intros a' _ Hne. apply list_lookup_insert_ne. intros ->. by apply Hne.
  - intros a' s0 Hs0. destruct (decide (a = a')) as [Heq|Hne]; [subst a'|].
    + exists s'. rewrite list_lookup_insert_eq by done.
      assert (s0 = s) as -> by congruence. by split.
    + exists s0. rewrite list_lookup_insert_ne by done.
      split; [done | apply stable_refl].
  - intros Hok a' s0 Hs0. simpl in Hs0.
    destruct (decide (a = a')) as [Heq|Hne]; [subst a'|].
    + rewrite list_lookup_insert_eq in Hs0 by done. injection Hs0 as <-.
      eapply stable_ok; eauto.
    + rewrite list_lookup_insert_ne in Hs0 by done. by eapply Hok.
  - intros [Hch Hcur]. constructor; simpl.
    + intros a' s0 e Hs0 He. simpl in Hs0.
      destruct (decide (a = a')) as [Heq|Hne]; [subst a'|].
      * rewrite list_lookup_insert_eq in Hs0 by done. injection Hs0 as <-.
        apply (Hch a s e Ha). destruct Hst. congruence.
      * rewrite list_lookup_insert_ne in Hs0 by done. by eapply Hch.
    + intros c' Hc'. rewrite length_insert. by apply Hcur.
Qed.

Lemma sound_insert ns nc a symbol : sound ns nc (Some a) (insert a symbol).
Proof.
  intros st Hns Hnc Hc. unfold insert, bind, symbol_at, scope_at, put_scope.
  destruct (sym_heap st !! symbol) as [sym|]; [|done].
  destruct (scope_heap st !! a) as [s|] eqn:Hs; [|done].
  split; [|done]. eapply evolves_put; [done | apply insert_key_stable].
Qed.

(** The constructor always returns, with the new table at the next free
    address, in the state [constructed]. *)
Lemma init_eq name kind level enclosing st :
  ScopedSymbolTable_.__init__ name kind level enclosing st
  = Done (length (scope_heap st)) (constructed name level enclosing st).
Proof.
  unfold ScopedSymbolTable_.__init__, _init_builtins, insert, bind, new_Symbol,
    symbol_at, scope_at, put_scope, ret, constructed. simpl.
  rewrite lookup_app_r by lia. rewrite Nat.sub_diag. simpl.
  rewrite lookup_app_r by lia. rewrite Nat.sub_diag. simpl.
  rewrite length_app. simpl.
  rewrite lookup_app_r by (rewrite length_app; simpl; lia).
  rewrite length_app. simpl.
  replace (length (sym_heap st) + 1 - (length (sym_heap st) + 1)) with 0 by lia.
  simpl.
  rewrite list_lookup_insert_eq by (rewrite length_app; simpl; lia).
  simpl. f_equal. f_equal.
  - by rewrite <- app_assoc.
  - rewrite list_insert_insert_eq.
    replace (length (scope_heap st)) with (length (scope_heap st) + 0) at 1 by lia.
    rewrite insert_app_r. simpl.
    by replace (length (sym_heap st) + 1) with (S (length (sym_heap st))) by lia.
Qed.

Lemma constructed_ok name level enclosing st :
  scope_ok {| _symbols := <["REAL" := S (length (sym_heap st))]>
                            (<["INTEGER" := length (sym_heap st)]> ∅);
              scope_name := name;
              scopeType := TokenType_class;
              scope_level := level;
              enclosing_scope := enclosing;
              hasReturnStatement := false |}.
Proof.
  by constructor.
Qed.

Lemma evolves_constructed ns nc c name level enclosing st :
  ns ≤ length (sym_heap st) → nc ≤ length (scope_heap st) →
  (wf st → ∀ a, enclosing = Some a → a < length (scope_heap st)) →
  evolves ns nc c st (constructed name level enclosing st).
Proof.
  intros Hns Hnc Henc. constructor; simpl.
  - rewrite length_app. lia.
  - intros a Ha. apply lookup_app_l. lia.
  - rewrite length_app. lia.
  - intros a Ha _. apply lookup_app_l. lia.
  - intros a s Hs. exists s. split; [|apply stable_refl].
    rewrite lookup_app_l; [done | by eapply lookup_lt_Some].
  - intros Hok a s Hs. simpl in Hs.
    apply lookup_app_Some in Hs as [Hs|[_ Hs]].
    + by eapply Hok.
    + destruct (a - length (scope_heap st)) as [|n]; simpl in Hs; [|done].
      injection Hs as <-. apply constructed_ok.
  - intros Hwf. pose proof Hwf as [Hch Hcur]. constructor; simpl.
    + intros a s e Hs He. simpl in Hs.
      apply lookup_app_Some in Hs as [Hs|[Hge Hs]].
      * by eapply Hch.
      * destruct (a - length (scope_heap st)) as [|n]; simpl in Hs; [|done].
        injection Hs as <-. simpl in He. specialize (Henc Hwf e He). lia.
    + intros c' Hc'. rewrite length_app. specialize (Hcur c' Hc'). lia.
Qed.

Lemma pure_scope_at' a : pure_with (scope_at a) (λ _, True).
Proof.
  intros st. pose proof (pure_scope_at a st) as H.
  destruct (scope_at a st); intuition.
Qed.

Lemma sound_bind_new_Symbol ns nc c {B} s (k : addr → M B) :
  (∀ a, ns ≤ a → sound ns nc c (k a)) → sound ns nc c (bind (new_Symbol s) k).
Proof.
  intros Hk st Hns Hnc Hc.
  pose proof (sound_new_Symbol ns nc c s st Hns Hnc Hc) as Hnew.
  unfold bind. unfold new_Symbol in *. destruct Hnew as [Hev Hc1].
  match goal with |- match k ?a ?st1 with _ => _ end =>
    specialize (Hk a Hns st1); destruct (k a st1) as [b st2|e st2| |] end;
    try done; simpl in Hk.
  - destruct Hk as [Hev2 Hc2]; [rewrite length_app; lia | done | done |].
    split; [by eapply evolves_trans | done].
  - eapply evolves_trans; [done | done |].
    apply Hk; [rewrite length_app; lia | done | done].
Qed.

Lemma sound_params_append ns nc c proc_symbol var_symbol :
  ns ≤ proc_symbol → sound ns nc c (params_append proc_symbol var_symbol).
Proof.
  intros Hp st Hns Hnc Hc. unfold params_append.
  destruct (sym_heap st !! proc_symbol) as [[n t|n|n ps]|] eqn:Hsym;
    try done; try apply evolves_refl.
  split; [|done]. constructor; simpl; auto.
  - by rewrite length_insert.
  - intros a Ha. apply list_lookup_insert_ne. lia.
  - intros a s Hs. exists s. split; [done | apply stable_refl].
  - intros []. by constructor.
Qed.

Lemma evolves_weaken ns nc c new st st' :
  nc ≤ new → evolves ns nc (Some new) st st' → evolves ns nc c st st'.
Proof.
  intros Hnew []. constructor; auto.
  intros a Ha _. apply ev_scope_old0; [done|]. intros [= ->]. lia.
Qed.

(** ** Rules for the tail of a handler that pushed a scope *)

Section Inside.

Context (ns nc : nat) (c : option addr) (new : addr).

Lemma inside_bind {A B} (m : M A) (k : A → M B) :
  sound ns nc (Some new) m → (∀ a, sound_inside ns nc c new (k a)) →
  sound_inside ns nc c new (bind m k).
Proof.
  intros Hm Hk st Hns Hnc Hc (s & Hs & He). unfold bind.
  specialize (Hm st Hns Hnc Hc).
  destruct (m st) as [a st1|e st1| |]; try done.
  destruct Hm as [Hev Hc1].
  assert (ns ≤ length (sym_heap st1)) as Hns1
    by (pose proof (ev_sym_len _ _ _ _ _ Hev); lia).
  assert (nc ≤ length (scope_heap st1)) as Hnc1
    by (pose proof (ev_scope_len _ _ _ _ _ Hev); lia).
  destruct (ev_stable _ _ _ _ _ Hev new s Hs) as (s' & Hs' & Hst).
  assert (∃ s, scope_heap st1 !! new = Some s ∧ enclosing_scope s = c) as Hnew.
  { exists s'. split; [done|]. destruct Hst. congruence. }
  specialize (Hk a st1 Hns1 Hnc1 Hc1 Hnew).
  destruct (k a st1) as [b st2|e st2| |]; try done.
  - destruct Hk as [Hev2 Hc2]. split; [by eapply evolves_trans | done].
  - by eapply evolves_trans.
Qed.

Lemma inside_bind_pure {A B} (m : M A) (k : A → M B) Q :
  pure_with m Q → (∀ a, Q a → sound_inside ns nc c new (k a)) →
  sound_inside ns nc c new (bind m k).
Proof.
  intros Hm Hk st Hns Hnc Hc Hnew. unfold bind. specialize (Hm st).
  destruct (m st) as [a st1|e st1| |]; try done.
  - destruct Hm as [-> Ha]. by apply Hk.
  - subst. apply evolves_refl.
Qed.

Lemma inside_leave : sound_inside ns nc c new leave_scope.
Proof.
  intros st Hns Hnc Hc (s & Hs & He).
  unfold leave_scope, bind, current_scope_obj, scope_at, set_current_scope.
  rewrite Hc, Hs. split; [|done].
  constructor; simpl; auto.
  - intros a s' Hs'. exists s'. split; [done | apply stable_refl].
  - intros [Hch Hcur]. constructor; simpl; [done|].
    intros c' Hc'.
    assert (enclosing_scope s = Some c') as He' by congruence.
    specialize (Hch new s c' Hs He'). specialize (Hcur new Hc). lia.
Qed.

(** The last statement of [visit_FunctionDecl] reads an attribute that no
    scope table has: whatever precedes it, control never gets past it. *)
Lemma inside_enclosingScope {B} attr (k : option addr → M B) :
  sound_inside ns nc c new
    (bind (current_scope_obj attr) (λ a, bind (enclosingScope a) k)).
Proof.
  intros st Hns Hnc Hc Hnew. unfold bind, current_scope_obj, enclosingScope, raise.
  rewrite Hc. apply evolves_refl.
Qed.

End Inside.

Lemma sound_push ns nc c {B} name kind level (k : addr → M B) :
  (∀ new, nc ≤ new → sound_inside ns nc c new (k new)) →
  sound ns nc c
    (bind (ScopedSymbolTable_.__init__ name kind level c)
          (λ new, bind (set_current_scope (Some new)) (λ _, k new))).
Proof.
  intros Hk st Hns Hnc Hc. unfold bind at 1. rewrite init_eq.
  unfold bind, set_current_scope.
  set (new := length (scope_heap st)).
  set (st1 := {| sym_heap := sym_heap (constructed name level c st);
                 scope_heap := scope_heap (constructed name level c st);
                 current_scope := Some new |}).
  assert (evolves ns nc c st st1) as Hev1.
  { assert (evolves ns nc c st (constructed name level c st)) as [].
    { apply evolves_constructed; [done | done |].
      intros [_ Hcur] a Ha. apply Hcur. congruence. }
    constructor; auto. intros Hwf. destruct (ev_wf0 Hwf) as [Hch _].
    constructor; [done|]. intros c' [= <-]. simpl.
    rewrite length_app. simpl. unfold new. lia. }
  assert (ns ≤ length (sym_heap st1)) as Hns1
    by (pose proof (ev_sym_len _ _ _ _ _ Hev1); lia).
  assert (nc ≤ length (scope_heap st1)) as Hnc1
    by (pose proof (ev_scope_len _ _ _ _ _ Hev1); lia).
  assert (∃ s, scope_heap st1 !! new = Some s ∧ enclosing_scope s = c) as Hnew.
  { eexists. split.
    - simpl. rewrite lookup_app_r by done.
      unfold new. rewrite Nat.sub_diag. reflexivity.
    - reflexivity. }
  specialize (Hk new Hnc st1 Hns1 Hnc1 eq_refl Hnew).
  destruct (k new st1) as [b st2|e st2| |]; try done.
  - destruct Hk as [Hev2 Hc2]. split; [|done].
    apply (evolves_trans _ _ _ st st1); [done | done |].
    by apply (evolves_weaken _ _ _ new).
  - apply (evolves_trans _ _ _ st st1); [done | done |].
    by apply (evolves_weaken _ _ _ new).
Qed.

(** ** Every handler is sound when the recursive calls are *)

Ltac pure_step :=
  first [ apply pure_getattr | apply pure_iter | apply pure_as_name
        | apply pure_lookup | apply pure_str | apply pure_scope_at' ].

Ltac sound_step visit_ok :=
  lazymatch goal with
  | |- sound _ _ _ (ret _) => apply sound_ret
  | |- sound _ _ _ (raise _) => apply sound_raise
  | |- sound _ _ _ (error _ _) => apply sound_raise
  | |- sound _ _ (Some ?a) (insert ?a _) => apply sound_insert
  | |- sound _ _ _ (params_append _ _) => apply sound_params_append; assumption
  | |- sound _ _ _ (for_each _ _) => apply sound_for_each; intros ?
  | |- sound _ _ _ (bind (current_scope_obj _) _) =>
      apply sound_on_current; intros ? ?; simplify_eq
  | |- sound _ _ _ (bind get_current_scope _) => apply sound_get_current
  | |- sound _ _ _ (bind (new_Symbol _) _) =>
      apply sound_bind_new_Symbol; intros ? ?
  | |- sound _ _ _ (bind (ScopedSymbolTable_.__init__ _ _ _ _) _) =>
      apply sound_push; intros ? ?
  | |- sound _ _ _ (bind _ _) =>
      first [ eapply sound_bind_pure; [pure_step | intros ? ?]
            | apply sound_bind; [| intros ?] ]
  | |- sound _ _ _ (match ?x with _ => _ end) => destruct x
  | |- sound_inside _ _ _ _ leave_scope => apply inside_leave
  | |- sound_inside _ _ _ _ (bind (current_scope_obj _) (λ _, bind (enclosingScope _) _)) =>
      apply inside_enclosingScope
  | |- sound_inside _ _ _ _ (bind _ _) =>
      first [ eapply inside_bind_pure; [pure_step | intros ? ?]
            | apply inside_bind; [| intros ?] ]
  | |- _ => apply visit_ok
  end.

Section HandlersSound.

Variable visit : pyval → M unit.
Hypothesis visit_ok : ∀ ns nc c node, sound ns nc c (visit node).

Lemma visit_Block_sound ns nc c node : sound ns nc c (visit_Block visit node).
Proof. unfold visit_Block. repeat sound_step visit_ok. Qed.

Lemma visit_Compound_sound ns nc c node : sound ns nc c (visit_Compound visit node).
Proof. unfold visit_Compound. repeat sound_step visit_ok. Qed.

Lemma visit_BinOp_sound ns nc c node : sound ns nc c (visit_BinOp visit node).
Proof. unfold visit_BinOp. repeat sound_step visit_ok. Qed.

Lemma visit_VarDecl_sound ns nc c node : sound ns nc c (visit_VarDecl node).
Proof. unfold visit_VarDecl. repeat sound_step visit_ok. Qed.

Lemma visit_Var_sound ns nc c node : sound ns nc c (visit_Var node).
Proof. unfold visit_Var. repeat sound_step visit_ok. Qed.

Lemma visit_Program_sound ns nc c node : sound ns nc c (visit_Program visit node).
Proof. unfold visit_Program. repeat sound_step visit_ok. Qed.

Lemma visit_simple_sound ns nc c node :
  sound ns nc c (visit_NoOp node) ∧ sound ns nc c (visit_Type node) ∧
  sound ns nc c (visit_Num node).
Proof. split; [|split]; apply sound_ret. Qed.

Lemma visit_UnaryOp_sound ns nc c node : sound ns nc c (visit_UnaryOp visit node).
Proof. unfold visit_UnaryOp. repeat sound_step visit_ok. Qed.

Lemma visit_ProcedureCall_sound ns nc c node :
  sound ns nc c (visit_ProcedureCall visit node).
Proof. unfold visit_ProcedureCall. repeat sound_step visit_ok. Qed.

Lemma visit_Call_sound ns nc c node : sound ns nc c (visit_Call visit node).
Proof. unfold visit_Call. repeat sound_step visit_ok. Qed.

Lemma visit_Condition_sound ns nc c node : sound ns nc c (visit_Condition visit node).
Proof. unfold visit_Condition. repeat sound_step visit_ok. Qed.

Lemma visit_child_sound ns nc c node :
  sound ns nc c (visit_Then visit node) ∧ sound ns nc c (visit_MyElse visit node) ∧
  sound ns nc c (visit_MyDo visit node) ∧ sound ns nc c (visit_While visit node).
Proof.
  unfold visit_Then, visit_MyElse, visit_MyDo, visit_While.
  split; [|split; [|split]]; repeat sound_step visit_ok.
Qed.

(** The test of [visit_Assign] never selects the return-assignment branch:
    either the kind field differs from [TokenType.FUNCTION], or reading
    [ScopeName] raises. *)
Lemma assign_test_false table currentScope var_value :
  pure_with
    (if kind_eqb (scopeType table) (TokenType_member FUNCTION)
     then own_name <- ScopeName currentScope ;;
          varName <- as_name var_value ;;
          ret (String.eqb varName own_name)
     else ret false)
    (λ b, b = false).
Proof.
  intros st. by destruct (kind_eqb _ _).
Qed.

Lemma visit_Assign_sound ns nc c node : sound ns nc c (visit_Assign visit node).
Proof.
  unfold visit_Assign. do 4 sound_step visit_ok.
  eapply sound_bind_pure; [apply assign_test_false | intros b ->].
  repeat sound_step visit_ok.
Qed.

Lemma declare_param_sound ns nc a type_attr proc_symbol param :
  ns ≤ proc_symbol →
  sound ns nc (Some a) (declare_param type_attr proc_symbol param).
Proof. intros Hp. unfold declare_param. repeat sound_step visit_ok. Qed.

Lemma visit_ProcedureDecl_sound ns nc c node :
  sound ns nc c (visit_ProcedureDecl visit node).
Proof.
  unfold visit_ProcedureDecl.
  repeat first [ apply declare_param_sound; assumption | sound_step visit_ok ].
Qed.

(** The end of [visit_FunctionDecl]: the check of the flag raises or falls
    through to the read of [enclosingScope], which raises. *)
Lemma pure_missing_return_check node (flag : bool) :
  pure_with
    (if negb flag
     then token <- getattr node "token" ;; error MISSING_RETURN token
     else ret tt)
    (λ _, True).
Proof.
  destruct flag; simpl.
  - eapply pure_with_weaken; [apply pure_ret | done].
  - eapply pure_bind; [apply pure_getattr | intros; apply pure_raise].
Qed.

Lemma visit_FunctionDecl_sound ns nc c node :
  sound ns nc c (visit_FunctionDecl visit node).
Proof.
  unfold visit_FunctionDecl.
  repeat first [ apply declare_param_sound; assumption
               | eapply inside_bind_pure;
                   [first [apply pure_missing_return_check | apply pure_ret] | intros ? ?]
               | sound_step visit_ok ].
Qed.

(** The handlers are sound whichever handler [dispatch] selects. *)
Lemma dispatch_sound ns nc c node : sound ns nc c (dispatch visit node).
Proof.
  unfold dispatch.
  destruct (find_method (type_name node) (methods visit)) as [m|] eqn:Hm;
    [|apply sound_ret].
  unfold methods in Hm. simpl in Hm.
  repeat match type of Hm with
         | (if ?b then _ else _) = _ => destruct b
         end; try discriminate; injection Hm as <-.
  all: first
    [ apply visit_Block_sound | apply visit_Program_sound
    | apply visit_Compound_sound | apply visit_simple_sound
    | apply visit_BinOp_sound | apply visit_ProcedureDecl_sound
    | apply visit_FunctionDecl_sound | apply visit_VarDecl_sound
    | apply visit_Assign_sound | apply visit_Var_sound
    | apply visit_UnaryOp_sound | apply visit_ProcedureCall_sound
    | apply visit_Call_sound | apply visit_Condition_sound
    | apply visit_child_sound ].
Qed.

End HandlersSound.

(** ** The traversal respects [evolves] and restores the current scope *)

Theorem visit_sound fuel : ∀ ns nc c node, sound ns nc c (visit fuel node).
Proof.
  induction fuel as [|fuel IH]; intros ns nc c node; simpl.
  - by intros st _ _ _.
  - by apply dispatch_sound.
Qed.


(** ** Construction of a scope table *)

(** C2: a newly constructed scope table, whatever its level and enclosing
    scope, holds exactly the two builtin type symbols INTEGER and REAL; the
    two symbols are created for this table (they sit at addresses that did
    not exist before), and looking either name up in the new table finds
    them without consulting the enclosing scope. *)
Theorem new_scope_has_own_builtins name kind level enclosing st :
  ∃ st' s,
    ScopedSymbolTable_.__init__ name kind level enclosing st
      = Done (length (scope_heap st)) st' ∧
    scope_heap st' = (scope_heap st ++ [s])%list ∧
    sym_heap st' = (sym_heap st ++
      [BuiltinTypeSymbol "INTEGER"; BuiltinTypeSymbol "REAL"])%list ∧
    _symbols s = <["REAL" := S (length (sym_heap st))]>
                   (<["INTEGER" := length (sym_heap st)]> ∅) ∧
    size (_symbols s) = 2 ∧
    scope_level s = level ∧ enclosing_scope s = enclosing ∧
    (∀ only, lookup (length (scope_heap st)) "INTEGER" only st'
               = Done (Some (length (sym_heap st))) st') ∧
    (∀ only, lookup (length (scope_heap st)) "REAL" only st'
               = Done (Some (S (length (sym_heap st)))) st').
Proof.
  eexists _, _. split; [apply init_eq|].
  split; [reflexivity|]. split; [reflexivity|]. split; [reflexivity|].
  split.
  { simpl. rewrite map_size_insert_None.
    - by rewrite map_size_insert_None, map_size_empty.
    - by rewrite lookup_insert_ne. }
  split; [reflexivity|]. split; [reflexivity|].
  split; intros only; unfold lookup; simpl; unfold bind, scope_at; simpl;
    rewrite lookup_app_r by done; rewrite Nat.sub_diag; simpl.
  - rewrite lookup_insert_ne by done. by rewrite lookup_insert_eq.
  - by rewrite lookup_insert_eq.
Qed.

(** ** Lookup *)

Lemma lookup_fuel_irrelevant st :
  chain_wf st → ∀ fuel fuel' self name only,
  self < fuel → self < fuel' →
  lookup_fuel fuel self name only st = lookup_fuel fuel' self name only st.
Proof.
  intros Hwf. induction fuel as [|fuel IH]; intros fuel' self name only Hf Hf';
    [lia|].
  destruct fuel' as [|fuel']; [lia|]. simpl. unfold bind, scope_at.
  destruct (scope_heap st !! self) as [s|] eqn:Hs; [|done].
  destruct (_symbols s !! name); [done|]. destruct only; [done|].
  destruct (enclosing_scope s) as [e|] eqn:He; [|done].
  specialize (Hwf self s e Hs He). apply IH; lia.
Qed.

Lemma lookup_unfold st self s name only :
  chain_wf st → scope_heap st !! self = Some s →
  lookup self name only st =
    match _symbols s !! name with
    | Some symbol => Done (Some symbol) st
    | None =>
        if only then Done None st
        else match enclosing_scope s with
             | Some e => lookup e name false st
             | None => Done None st
             end
    end.
Proof.
  intros Hwf Hs. unfold lookup at 1. cbn [lookup_fuel].
  unfold bind, scope_at. rewrite Hs.
  destruct (_symbols s !! name); [done|]. destruct only; [done|].
  destruct (enclosing_scope s) as [e|] eqn:He; [|done].
  pose proof (Hwf self s e Hs He). unfold lookup.
  apply lookup_fuel_irrelevant; [done|lia..].
Qed.

Lemma lookup_total st name :
  chain_wf st → ∀ self only, is_Some (scope_heap st !! self) →
  ∃ r, lookup self name only st = Done r st.
Proof.
  intros Hwf self. induction (lt_wf self) as [self _ IH].
  intros only [s Hs]. rewrite (lookup_unfold st self s) by done.
  destruct (_symbols s !! name); [eauto|]. destruct only; [eauto|].
  destruct (enclosing_scope s) as [e|] eqn:He; [|eauto].
  pose proof (Hwf self s e Hs He) as Hlt. apply IH; [done|].
  apply lookup_lt_is_Some_2. apply lookup_lt_Some in Hs. lia.
Qed.

(** C4: with [current_scope_only] set, [lookup] returns what the table itself
    binds to the name, or none; otherwise it returns the local binding when
    there is one, else the result of the same chained lookup in the
    enclosing scope, and none when there is no enclosing scope.  In every
    case it returns (it raises nothing) and leaves the state as it was. *)
Theorem lookup_spec st self s name :
  chain_wf st → scope_heap st !! self = Some s →
  lookup self name true st = Done (_symbols s !! name) st ∧
  lookup self name false st =
    match _symbols s !! name with
    | Some symbol => Done (Some symbol) st
    | None => match enclosing_scope s with
              | Some e => lookup e name false st
              | None => Done None st
              end
    end ∧
  ∀ only, ∃ r, lookup self name only st = Done r st.
Proof.
  intros Hwf Hs. split; [|split].
  - rewrite (lookup_unfold st self s) by done. by destruct (_symbols s !! name).
  - by rewrite (lookup_unfold st self s) by done.
  - intros only. apply lookup_total; [done | eauto].
Qed.

(** ** Variable declarations *)

Lemma dispatch_VarDecl visit node :
  type_name node = "VarDecl" → dispatch visit node = visit_VarDecl node.
Proof. intros H. unfold dispatch. by rewrite H. Qed.

Lemma insert_eq self symbol sym s st :
  sym_heap st !! symbol = Some sym → scope_heap st !! self = Some s →
  insert self symbol st
  = Done tt (with_scope self (with_symbol s (Symbol_name sym) symbol) st).
Proof.
  intros Hsym Hs. unfold insert, bind, symbol_at, scope_at. by rewrite Hsym, Hs.
Qed.

(** What [visit_VarDecl] does to a declaration with a visible shape, in a
    state with a current scope. *)
Lemma visit_VarDecl_eq node type_node var_node ty x token st c s :
  attr node "type_node" = Some type_node →
  attr type_node "value" = Some (VStr ty) →
  attr node "var_node" = Some var_node →
  attr var_node "value" = Some (VStr x) →
  attr var_node "token" = Some token →
  chain_wf st → current_scope st = Some c → scope_heap st !! c = Some s →
  ∃ type_symbol,
    lookup c ty false st = Done type_symbol st ∧
    visit_VarDecl node st =
      match _symbols s !! x with
      | Some _ =>
          Raised (SemanticError DUPLICATE_ID token)
                 (with_new_symbol (VarSymbol x type_symbol) st)
      | None =>
          Done tt (with_scope c (with_symbol s x (length (sym_heap st)))
                     (with_new_symbol (VarSymbol x type_symbol) st))
      end.
Proof.
  intros Htn Hty Hvn Hx Htok Hwf Hc Hs.
  destruct (lookup_total st ty Hwf c false) as [type_symbol Hlk]; [eauto|].
  exists type_symbol. split; [done|].
  unfold visit_VarDecl, bind, getattr. rewrite Htn. simpl. rewrite Hty. simpl.
  unfold current_scope_obj at 1. rewrite Hc, Hlk, Hvn. simpl. rewrite Hx. simpl.
  unfold current_scope_obj, with_scope, with_new_symbol. simpl. rewrite Hc.
  match goal with
  | |- context [lookup c x true ?st1] =>
      rewrite (lookup_unfold st1 c s x true) by (first [exact Hwf | exact Hs])
  end.
  destruct (_symbols s !! x) as [old|] eqn:Hold.
  - simpl. by rewrite Htok.
  - simpl. rewrite (insert_eq c _ (VarSymbol x type_symbol) s).
    + done.
    + simpl. rewrite lookup_app_r by done. by rewrite Nat.sub_diag.
    + exact Hs.
Qed.

(** C3: visiting a VarDecl fails with DuplicateIdentifier, at the token of
    the variable, exactly when the current scope's own table already binds
    the name; what the enclosing scopes bind plays no part, so a name bound
    only there is declared again without error; on success the current
    scope's table binds the name to a new VariableSymbol whose type is what
    the chained lookup of the type name returned. *)
Theorem visit_VarDecl_spec fuel node type_node var_node ty x token st c s :
  type_name node = "VarDecl" →
  attr node "type_node" = Some type_node →
  attr type_node "value" = Some (VStr ty) →
  attr node "var_node" = Some var_node →
  attr var_node "value" = Some (VStr x) →
  attr var_node "token" = Some token →
  chain_wf st → current_scope st = Some c → scope_heap st !! c = Some s →
  ∃ type_symbol,
    lookup c ty false st = Done type_symbol st ∧
    (is_Some (_symbols s !! x) ↔
     ∃ st', visit (S fuel) node st = Raised (SemanticError DUPLICATE_ID token) st') ∧
    (_symbols s !! x = None →
     visit (S fuel) node st =
       Done tt (with_scope c (with_symbol s x (length (sym_heap st)))
                  (with_new_symbol (VarSymbol x type_symbol) st))).
Proof.
  intros Hk Htn Hty Hvn Hx Htok Hwf Hc Hs.
  destruct (visit_VarDecl_eq node type_node var_node ty x token st c s)
    as (type_symbol & Hlk & Heq); try done.
  exists type_symbol. split; [done|].
  simpl. rewrite dispatch_VarDecl by done. rewrite Heq.
  destruct (_symbols s !! x) as [old|].
  - split; [|done]. split; [eauto | eauto].
  - split; [|done]. split; [by intros [? ?] | by intros [? ?]].
Qed.

Lemma pure_current_scope_obj attr : pure_with (current_scope_obj attr) (λ _, True).
Proof. intros st. unfold current_scope_obj. by destruct (current_scope st). Qed.

Lemma bind_pure_Raised {A B} (m : M A) Q (k : A → M B) st e st' :
  pure_with m Q → bind m k st = Raised e st' →
  st' = st ∨ ∃ a, Q a ∧ k a st = Raised e st'.
Proof.
  intros Hm. unfold bind. specialize (Hm st).
  destruct (m st) as [a st1|e1 st1| |]; try done.
  - destruct Hm as [-> Ha]. eauto.
  - intros [= -> ->]. by left.
Qed.

Lemma bind_pure_Done {A B} (m : M A) Q (k : A → M B) st b st' :
  pure_with m Q → bind m k st = Done b st' →
  ∃ a, Q a ∧ m st = Done a st ∧ k a st = Done b st'.
Proof.
  intros Hm. unfold bind. pose proof (Hm st) as Hst.
  destruct (m st) as [a st1|e1 st1| |]; try done.
  destruct Hst as [-> Ha]. eauto.
Qed.

Lemma bind_new_Symbol {B} sym (k : addr → M B) st :
  bind (new_Symbol sym) k st = k (length (sym_heap st)) (with_new_symbol sym st).
Proof. reflexivity. Qed.

Lemma insert_not_Raised self symbol st e st' :
  insert self symbol st ≠ Raised e st'.
Proof.
  unfold insert, bind, symbol_at, scope_at, put_scope.
  destruct (sym_heap st !! symbol); [|done]. by destruct (scope_heap st !! self).
Qed.

Lemma pure_duplicate_check node (found : option addr) :
  pure_with
    (match found with
     | Some _ =>
         var_node' <- getattr node "var_node" ;;
         token <- getattr var_node' "token" ;;
         error DUPLICATE_ID token
     | None => ret tt
     end)
    (λ _, found = None).
Proof.
  destruct found.
  - eapply pure_bind; [apply pure_getattr | intros ? _].
    eapply pure_bind; [apply pure_getattr | intros ? _]. apply pure_raise.
  - eapply pure_with_weaken; [apply pure_ret | done].
Qed.

(** Whenever [visit_VarDecl] raises, the only trace it leaves is the symbol
    object it had constructed; no table has changed. *)
Lemma visit_VarDecl_Raised node st e st' :
  visit_VarDecl node st = Raised e st' →
  scope_heap st' = scope_heap st ∧ current_scope st' = current_scope st ∧
  sym_heap st `prefix_of` sym_heap st'.
Proof.
  unfold visit_VarDecl. intros H.
  repeat (eapply bind_pure_Raised in H;
            [| first [pure_step | apply pure_current_scope_obj]];
          destruct H as [-> | (? & ? & H)]; [done|]).
  rewrite bind_new_Symbol in H.
  repeat (eapply bind_pure_Raised in H;
            [| first [pure_step | apply pure_current_scope_obj
                     | apply pure_duplicate_check]];
          destruct H as [-> | (? & ? & H)];
          [by repeat split; try apply prefix_app_r|]).
  by apply insert_not_Raised in H.
Qed.

(** C10: when visiting a VarDecl raises DuplicateIdentifier, every scope
    table, the current one included, is exactly as it was before the visit:
    the check precedes the insertion, so the new VariableSymbol is bound
    nowhere, and the earlier binding and the symbol it names are intact. *)
Theorem duplicate_leaves_tables_unchanged fuel node token st st' :
  type_name node = "VarDecl" →
  visit fuel node st = Raised (SemanticError DUPLICATE_ID token) st' →
  scope_heap st' = scope_heap st ∧ current_scope st' = current_scope st ∧
  sym_heap st `prefix_of` sym_heap st'.
Proof.
  intros Hk H. destruct fuel as [|fuel]; [done|]. simpl in H.
  rewrite dispatch_VarDecl in H by done. by eapply visit_VarDecl_Raised.
Qed.

(** ** Unary operators *)

(** C8: the handler of UnaryOp reads the attribute [right], and a UnaryOp
    node built by the AST module keeps its operand in [expr]: visiting such
    a node raises AttributeError whatever the operand is, also when
    visiting the operand alone succeeds. *)
Theorem visit_UnaryOp_of_ast_raises :
  (∀ fuel op expr st,
     visit (S fuel) (Ast.UnaryOp op expr) st
     = Raised (AttributeError "UnaryOp" "right") st) ∧
  (∀ fuel z st, visit (S fuel) (Node.IntNum z) st = Done tt st).
Proof. split; reflexivity. Qed.

(** ** Functions and the return convention *)

(** A FunctionDecl never completes: past the check of the flag, the handler
    reads [enclosingScope], which no scope table has. *)
Lemma visit_FunctionDecl_never_Done visit node st st' :
  visit_FunctionDecl visit node st ≠ Done tt st'.
Proof.
  unfold visit_FunctionDecl. intros H.
  repeat (apply bind_Done in H as (? & ? & ? & H)).
  match goal with
  | Hraise : enclosingScope _ _ = Done _ _ |- _ => discriminate Hraise
  end.
Qed.

(** C1 (the code departs from it): a function whose body assigns to the
    function's own name is analyzed, and the analysis still fails with
    MissingReturn at the function's token; the assignment was resolved by
    an ordinary lookup, and no scope table has recorded a return. *)
Theorem return_assignment_is_not_recorded :
  match analyze 10 Example.program_with_function with
  | Raised (SemanticError MISSING_RETURN token) st' =>
      token = Node.Token "ID" (VStr "f") ∧
      hasReturnStatement <$> scope_heap st' = [false; false; false]
  | _ => False
  end.
Proof. vm_compute. by split. Qed.

(** ** The kind of a scope *)

Lemma sound_ends ns nc {A} (m : M A) st st' :
  sound ns nc (current_scope st) m →
  ns ≤ length (sym_heap st) → nc ≤ length (scope_heap st) →
  ends (m st) st' → evolves ns nc (current_scope st) st st'.
Proof.
  intros Hm Hns Hnc Hend. specialize (Hm st Hns Hnc eq_refl).
  destruct (m st) as [a st1|e st1| |]; simpl in Hend; try done; subst.
  - by destruct Hm.
  - done.
Qed.

Lemma visit_ends_evolves fuel node st st' :
  ends (visit fuel node st) st' →
  evolves (length (sym_heap st)) (length (scope_heap st)) (current_scope st) st st'.
Proof. intros H. eapply sound_ends; [apply visit_sound | done..]. Qed.

(** The analyzer starts in a well-formed state. *)
Lemma initial_state_ok :
  ∃ st0, SemanticAnalyzer.__init__ empty_state = Done tt st0 ∧
         wf st0 ∧ scopes_ok st0 ∧ current_scope st0 = Some 0.
Proof.
  unfold SemanticAnalyzer.__init__. unfold bind. rewrite init_eq.
  eexists. split; [reflexivity|].
  assert (evolves 0 0 None empty_state (constructed "initial" 1 None empty_state))
    as [] by (by apply evolves_constructed).
  split; [|split; [|done]].
  - destruct ev_wf0 as [Hch _]; [by constructor|].
    constructor; [exact Hch|]. intros c [= <-]. simpl. lia.
  - apply ev_ok0. by intros a s Hs.
Qed.

(** In every state in which an analysis ends, normally or not, every scope
    table still has the kind field and the flag that the constructor gave
    it, and binds both builtin type names. *)
Lemma analysis_scopes_ok fuel root st' :
  ends (analyze fuel root) st' → scopes_ok st'.
Proof.
  intros Hend. destruct initial_state_ok as (st0 & Hinit & Hwf & Hok & Hc).
  unfold analyze, bind in Hend. rewrite Hinit in Hend.
  apply visit_ends_evolves in Hend. by apply (ev_ok _ _ _ _ _ Hend).
Qed.

(** C9: the constructor ignores the kind it is given: whatever is passed,
    the [scopeType] field of the new table is the enumeration class itself;
    so in every state that an analysis reaches, every scope table has that
    same value, and comparing it with [TokenType.FUNCTION] gives false. *)
Theorem scope_kind_is_never_FUNCTION :
  (∀ name kind level enclosing st,
     ∃ st' s, ScopedSymbolTable_.__init__ name kind level enclosing st
                = Done (length (scope_heap st)) st' ∧
              scope_heap st' !! length (scope_heap st) = Some s ∧
              scopeType s = TokenType_class) ∧
  (∀ fuel root st', ends (analyze fuel root) st' →
     ∀ a s, scope_heap st' !! a = Some s →
       scopeType s = TokenType_class ∧
       kind_eqb (scopeType s) (TokenType_member FUNCTION) = false).
Proof.
  split.
  - intros name kind level enclosing st. eexists _, _.
    split; [apply init_eq|]. split.
    + simpl. rewrite lookup_app_r by done. by rewrite Nat.sub_diag.
    + reflexivity.
  - intros fuel root st' Hend a s Hs.
    destruct (analysis_scopes_ok fuel root st' Hend a s Hs) as [Hkind _ _ _].
    by rewrite Hkind.
Qed.

(** ** Entering a scope *)

Lemma visit_Program_eq visit node st :
  visit_Program visit node st = Program_inside visit node (entered "global" 1 st).
Proof.
  unfold visit_Program. unfold bind at 1. unfold get_current_scope.
  unfold bind at 1. by rewrite init_eq.
Qed.

(** Stepping through the first statements of a handler. *)
Lemma bind_ret {A B} (a : A) (k : A → M B) st : bind (ret a) k st = k a st.
Proof. reflexivity. Qed.

Lemma bind_getattr {B} node a v (k : pyval → M B) st :
  attr node a = Some v → bind (getattr node a) k st = k v st.
Proof. intros H. unfold bind, getattr. by rewrite H. Qed.

Lemma bind_as_name {B} s (k : string → M B) st :
  bind (as_name (VStr s)) k st = k s st.
Proof. reflexivity. Qed.

Lemma bind_iter_list {B} items (k : list pyval → M B) st :
  bind (iter (VList items)) k st = k items st.
Proof. reflexivity. Qed.

Lemma bind_current_scope_obj {B} attr c (k : addr → M B) st :
  current_scope st = Some c → bind (current_scope_obj attr) k st = k c st.
Proof. intros H. unfold bind, current_scope_obj. by rewrite H. Qed.

Lemma bind_get_current_scope {B} (k : option addr → M B) st :
  bind get_current_scope k st = k (current_scope st) st.
Proof. reflexivity. Qed.

Lemma bind_set_current_scope {B} c (k : unit → M B) st :
  bind (set_current_scope c) k st
  = k tt {| sym_heap := sym_heap st; scope_heap := scope_heap st;
            current_scope := c |}.
Proof. reflexivity. Qed.

Lemma bind_scope_at {B} a s (k : ScopedSymbolTable → M B) st :
  scope_heap st !! a = Some s → bind (scope_at a) k st = k s st.
Proof. intros H. unfold bind, scope_at. by rewrite H. Qed.

Lemma bind_insert {B} self symbol sym s (k : unit → M B) st :
  sym_heap st !! symbol = Some sym → scope_heap st !! self = Some s →
  bind (insert self symbol) k st
  = k tt (with_scope self (with_symbol s (Symbol_name sym) symbol) st).
Proof. intros Hsym Hs. unfold bind at 1. by rewrite (insert_eq _ _ sym s). Qed.

Lemma bind_init {B} name kind level enclosing (k : addr → M B) st :
  bind (ScopedSymbolTable_.__init__ name kind level enclosing) k st
  = k (length (scope_heap st)) (constructed name level enclosing st).
Proof. unfold bind at 1. by rewrite init_eq. Qed.

Lemma bind_lookup {B} self name only r (k : option addr → M B) st :
  lookup self name only st = Done r st →
  bind (lookup self name only) k st = k r st.
Proof. intros H. unfold bind. by rewrite H. Qed.

Lemma new_symbol_at sym st :
  sym_heap (with_new_symbol sym st) !! length (sym_heap st) = Some sym.
Proof. simpl. rewrite lookup_app_r by done. by rewrite Nat.sub_diag. Qed.

Lemma visit_ProcedureDecl_eq visit node p st c sc :
  attr node "procName" = Some (VStr p) →
  current_scope st = Some c → scope_heap st !! c = Some sc →
  visit_ProcedureDecl visit node st
  = ProcedureDecl_inside visit node (length (sym_heap st))
      (entered p (scope_level sc + 1) (declared p c sc st)).
Proof.
  intros Hp Hc Hs. unfold visit_ProcedureDecl.
  rewrite (bind_getattr _ _ _ _ _ Hp), bind_as_name, bind_new_Symbol.
  rewrite (bind_current_scope_obj _ c) by done.
  rewrite (bind_insert _ _ (ProcedureSymbol p []) sc)
    by first [apply new_symbol_at | done].
  fold (declared p c sc st).
  rewrite (bind_current_scope_obj _ c) by done.
  rewrite (bind_scope_at _ (with_symbol sc p (length (sym_heap st))))
    by (simpl; apply list_lookup_insert_eq; by eapply lookup_lt_Some).
  rewrite bind_get_current_scope, bind_init, bind_set_current_scope.
  reflexivity.
Qed.

Lemma visit_FunctionDecl_eq visit node p st c sc :
  attr node "funcName" = Some (VStr p) →
  current_scope st = Some c → scope_heap st !! c = Some sc →
  visit_FunctionDecl visit node st
  = FunctionDecl_inside visit node (length (sym_heap st)) (length (scope_heap st))
      (entered p (scope_level sc + 1) (declared p c sc st)).
Proof.
  intros Hp Hc Hs. unfold visit_FunctionDecl.
  rewrite (bind_getattr _ _ _ _ _ Hp), bind_as_name, bind_new_Symbol.
  rewrite (bind_current_scope_obj _ c) by done.
  rewrite (bind_insert _ _ (ProcedureSymbol p []) sc)
    by first [apply new_symbol_at | done].
  fold (declared p c sc st).
  rewrite (bind_current_scope_obj _ c) by done.
  rewrite (bind_scope_at _ (with_symbol sc p (length (sym_heap st))))
    by (simpl; apply list_lookup_insert_eq; by eapply lookup_lt_Some).
  rewrite bind_get_current_scope, bind_init, bind_set_current_scope.
  replace (length (scope_heap st)) with (length (scope_heap (declared p c sc st)))
    by (simpl; apply length_insert).
  reflexivity.
Qed.

Section InsideSound.

Context (fuel ns nc : nat) (c : option addr) (new : addr) (node : pyval).

Lemma Program_inside_sound :
  sound_inside ns nc c new (Program_inside (visit fuel) node).
Proof. unfold Program_inside. repeat sound_step (visit_sound fuel). Qed.

Lemma ProcedureDecl_body_sound :
  sound_inside ns nc c new (ProcedureDecl_body (visit fuel) node).
Proof. unfold ProcedureDecl_body. repeat sound_step (visit_sound fuel). Qed.

Lemma ProcedureDecl_inside_sound proc_symbol :
  ns ≤ proc_symbol →
  sound_inside ns nc c new (ProcedureDecl_inside (visit fuel) node proc_symbol).
Proof.
  intros Hp. unfold ProcedureDecl_inside.
  repeat first [ apply declare_param_sound; assumption
               | apply ProcedureDecl_body_sound
               | sound_step (visit_sound fuel) ].
Qed.

Lemma FunctionDecl_inside_sound funcSymbol procedureScope :
  ns ≤ funcSymbol →
  sound_inside ns nc c new
    (FunctionDecl_inside (visit fuel) node funcSymbol procedureScope).
Proof.
  intros Hp. unfold FunctionDecl_inside.
  repeat first [ apply declare_param_sound; assumption
               | eapply inside_bind_pure;
                   [first [apply pure_missing_return_check | apply pure_ret] | intros ? ?]
               | sound_step (visit_sound fuel) ].
Qed.

End InsideSound.

(** Running the inside of a handler from the state [entered]. *)
Lemma inside_ends ns nc {A} (m : M A) name level st st' :
  sound_inside ns nc (current_scope st) (length (scope_heap st)) m →
  ns ≤ length (sym_heap st) → nc ≤ length (scope_heap st) →
  ends (m (entered name level st)) st' →
  evolves ns nc (Some (length (scope_heap st))) (entered name level st) st' ∧
  (∀ u, m (entered name level st) = Done u st' →
        current_scope st' = current_scope st).
Proof.
  intros Hm Hns Hnc Hend.
  assert (ns ≤ length (sym_heap (entered name level st))) as Hns1
    by (simpl; rewrite length_app; lia).
  assert (nc ≤ length (scope_heap (entered name level st))) as Hnc1
    by (simpl; rewrite length_app; lia).
  assert (∃ s, scope_heap (entered name level st) !! length (scope_heap st) = Some s
               ∧ enclosing_scope s = current_scope st) as Hnew.
  { eexists. split.
    - simpl. rewrite lookup_app_r by done. rewrite Nat.sub_diag. reflexivity.
    - reflexivity. }
  specialize (Hm _ Hns1 Hnc1 eq_refl Hnew).
  destruct (m (entered name level st)) as [a st1|e st1| |];
    simpl in Hend; try done; subst.
  - destruct Hm. split; [done|]. by intros u _.
  - split; [done|]. by intros u Hu.
Qed.

Lemma evolves_entered ns nc name level st :
  ns ≤ length (sym_heap st) → nc ≤ length (scope_heap st) →
  evolves ns nc (current_scope st) st (entered name level st).
Proof.
  intros Hns Hnc.
  assert (evolves ns nc (current_scope st) st
            (constructed name level (current_scope st) st)) as [].
  { apply evolves_constructed; [done | done |].
    intros [_ Hcur] a Ha. by apply Hcur. }
  constructor; auto. intros Hwf. destruct (ev_wf0 Hwf) as [Hch _].
  constructor; [done|]. intros c' [= <-]. simpl.
  rewrite length_app. simpl. lia.
Qed.

Lemma dispatch_Program visit node :
  type_name node = "Program" → dispatch visit node = visit_Program visit node.
Proof. intros H. unfold dispatch. by rewrite H. Qed.

Lemma dispatch_ProcedureDecl visit node :
  type_name node = "ProcedureDecl" →
  dispatch visit node = visit_ProcedureDecl visit node.
Proof. intros H. unfold dispatch. by rewrite H. Qed.

Lemma dispatch_FunctionDecl visit node :
  type_name node = "FunctionDecl" →
  dispatch visit node = visit_FunctionDecl visit node.
Proof. intros H. unfold dispatch. by rewrite H. Qed.

(** Either a declaration gets as far as pushing its scope, or it stops
    before any table is touched. *)
Lemma visit_ProcedureDecl_prefix visit node st st' :
  ends (visit_ProcedureDecl visit node st) st' →
  (∃ p c sc, attr node "procName" = Some (VStr p) ∧
             current_scope st = Some c ∧ scope_heap st !! c = Some sc) ∨
  (scope_heap st' = scope_heap st ∧
   ∃ e, visit_ProcedureDecl visit node st = Raised e st').
Proof.
  intros H. destruct (attr node "procName") as [v|] eqn:Hp.
  2: { right.
       assert (visit_ProcedureDecl visit node st
               = Raised (AttributeError (type_name node) "procName") st) as Heq
         by (unfold visit_ProcedureDecl, bind at 1, getattr; by rewrite Hp).
       rewrite Heq in H. simpl in H. subst. eauto. }
  destruct v as [| |p| |];
    try (exfalso; unfold visit_ProcedureDecl in H;
         rewrite (bind_getattr _ _ _ _ _ Hp) in H; exact H).
  destruct (current_scope st) as [c|] eqn:Hc.
  2: { right.
       assert (visit_ProcedureDecl visit node st
               = Raised (AttributeError "NoneType" "insert")
                   (with_new_symbol (ProcedureSymbol p []) st)) as Heq.
       { unfold visit_ProcedureDecl.
         rewrite (bind_getattr _ _ _ _ _ Hp), bind_as_name, bind_new_Symbol.
         unfold bind at 1, current_scope_obj. simpl. by rewrite Hc. }
       rewrite Heq in H. simpl in H. subst. eauto. }
  destruct (scope_heap st !! c) as [sc|] eqn:Hs; [left; by exists p, c, sc|].
  exfalso. unfold visit_ProcedureDecl in H.
  rewrite (bind_getattr _ _ _ _ _ Hp), bind_as_name, bind_new_Symbol in H.
  rewrite (bind_current_scope_obj _ c) in H by done.
  unfold bind at 1, insert, bind at 1, symbol_at in H.
  rewrite new_symbol_at in H.
  unfold bind at 1, scope_at in H. simpl in H. rewrite Hs in H. exact H.
Qed.

Lemma visit_FunctionDecl_prefix visit node st st' :
  ends (visit_FunctionDecl visit node st) st' →
  (∃ p c sc, attr node "funcName" = Some (VStr p) ∧
             current_scope st = Some c ∧ scope_heap st !! c = Some sc) ∨
  (scope_heap st' = scope_heap st ∧
   ∃ e, visit_FunctionDecl visit node st = Raised e st').
Proof.
  intros H. destruct (attr node "funcName") as [v|] eqn:Hp.
  2: { right.
       assert (visit_FunctionDecl visit node st
               = Raised (AttributeError (type_name node) "funcName") st) as Heq
         by (unfold visit_FunctionDecl, bind at 1, getattr; by rewrite Hp).
       rewrite Heq in H. simpl in H. subst. eauto. }
  destruct v as [| |p| |];
    try (exfalso; unfold visit_FunctionDecl in H;
         rewrite (bind_getattr _ _ _ _ _ Hp) in H; exact H).
  destruct (current_scope st) as [c|] eqn:Hc.
  2: { right.
       assert (visit_FunctionDecl visit node st
               = Raised (AttributeError "NoneType" "insert")
                   (with_new_symbol (ProcedureSymbol p []) st)) as Heq.
       { unfold visit_FunctionDecl.
         rewrite (bind_getattr _ _ _ _ _ Hp), bind_as_name, bind_new_Symbol.
         unfold bind at 1, current_scope_obj. simpl. by rewrite Hc. }
       rewrite Heq in H. simpl in H. subst. eauto. }
  destruct (scope_heap st !! c) as [sc|] eqn:Hs; [left; by exists p, c, sc|].
  exfalso. unfold visit_FunctionDecl in H.
  rewrite (bind_getattr _ _ _ _ _ Hp), bind_as_name, bind_new_Symbol in H.
  rewrite (bind_current_scope_obj _ c) in H by done.
  unfold bind at 1, insert, bind at 1, symbol_at in H.
  rewrite new_symbol_at in H.
  unfold bind at 1, scope_at in H. simpl in H. rewrite Hs in H. exact H.
Qed.


(** The table pushed by a handler keeps the fields it was constructed with
    for as long as the inside of the handler runs. *)
Lemma pushed_scope_fields {A} (m : M A) name level st st' s' :
  sound_inside 0 0 (current_scope st) (length (scope_heap st)) m →
  ends (m (entered name level st)) st' →
  scope_heap st' !! length (scope_heap st) = Some s' →
  scope_level s' = level ∧ enclosing_scope s' = current_scope st ∧
  length (scope_heap st) < length (scope_heap st').
Proof.
  intros Hm Hend Hs'.
  destruct (inside_ends 0 0 m name level st st' Hm) as [Hev _]; [lia | lia | done |].
  destruct Hev. simpl in *.
  edestruct (ev_stable0 (length (scope_heap st))) as (s'' & Hs'' & Hst).
  { rewrite lookup_app_r by done. rewrite Nat.sub_diag. reflexivity. }
  assert (s'' = s') as -> by congruence. destruct Hst. simpl in *.
  repeat split; try done. by eapply lookup_lt_Some.
Qed.

(** ** Scope levels *)

(** C7, as amended: the scope that visiting a Program pushes has level 1,
    whatever the level of the scope that is current then (the placeholder
    scope is itself at level 1), and that scope is its enclosing scope; the
    scope that a ProcedureDecl or FunctionDecl pushes is one level above
    its enclosing scope, the scope that is current at the declaration. *)
Theorem pushed_scope_level fuel node st st' s' :
  ends (visit fuel node st) st' →
  scope_heap st' !! length (scope_heap st) = Some s' →
  (type_name node = "Program" →
     scope_level s' = 1%Z ∧ enclosing_scope s' = current_scope st) ∧
  (type_name node = "ProcedureDecl" ∨ type_name node = "FunctionDecl" →
     ∃ c sc, current_scope st = Some c ∧ scope_heap st !! c = Some sc ∧
             scope_level s' = (scope_level sc + 1)%Z ∧
             enclosing_scope s' = Some c).
Proof.
  intros Hend Hs'. destruct fuel as [|fuel]; [done|]. simpl in Hend.
  split.
  - intros Hk. rewrite dispatch_Program, visit_Program_eq in Hend by done.
    eapply pushed_scope_fields in Hend; [|apply Program_inside_sound|done].
    destruct Hend as (Hl & He & _). by split.
  - intros [Hk|Hk].
    + rewrite dispatch_ProcedureDecl in Hend by done.
      destruct (visit_ProcedureDecl_prefix _ _ _ _ Hend)
        as [(p & c & sc & Hp & Hc & Hs)|[Heq _]].
      2: { rewrite Heq in Hs'. apply lookup_lt_Some in Hs'. lia. }
      rewrite (visit_ProcedureDecl_eq _ _ p st c sc) in Hend by done.
      exists c, sc. split; [done|]. split; [done|].
      eapply pushed_scope_fields in Hend.
      * simpl in Hend. rewrite Hc in Hend. destruct Hend as (Hl & He & _).
        by split.
      * apply ProcedureDecl_inside_sound. lia.
      * simpl. by rewrite length_insert.
    + rewrite dispatch_FunctionDecl in Hend by done.
      destruct (visit_FunctionDecl_prefix _ _ _ _ Hend)
        as [(p & c & sc & Hp & Hc & Hs)|[Heq _]].
      2: { rewrite Heq in Hs'. apply lookup_lt_Some in Hs'. lia. }
      rewrite (visit_FunctionDecl_eq _ _ p st c sc) in Hend by done.
      exists c, sc. split; [done|]. split; [done|].
      eapply pushed_scope_fields in Hend.
      * simpl in Hend. rewrite Hc in Hend. destruct Hend as (Hl & He & _).
        by split.
      * apply FunctionDecl_inside_sound. lia.
      * simpl. by rewrite length_insert.
Qed.

(** C7, as stated, fails: the scope pushed for a Program has the placeholder
    scope as its enclosing scope and the same level, 1, not one more. *)
Lemma program_scope_level_not_incremented :
  match SemanticAnalyzer.__init__ empty_state with
  | Done _ st0 =>
      match visit 10 Example.empty_program st0 with
      | Done _ st' =>
          match scope_heap st0 !! 0, scope_heap st' !! 1 with
          | Some placeholder, Some pushed =>
              current_scope st0 = Some 0 ∧
              length (scope_heap st0) = 1 ∧
              enclosing_scope pushed = Some 0 ∧
              scope_level pushed ≠ (scope_level placeholder + 1)%Z
          | _, _ => False
          end
      | _ => False
      end
  | _ => False
  end.
Proof. vm_compute. by repeat split. Qed.

(** ** Leaving a scope *)

Lemma reachable_old st st' a :
  wf st → wf st' → current_scope st' = current_scope st →
  reachable st' a → a < length (scope_heap st).
Proof.
  intros [_ Hcur] [Hch' _] Hc Hr. induction Hr as [c Hc'|a s e _ IH Hs He].
  - apply Hcur. congruence.
  - specialize (Hch' a s e Hs He). lia.
Qed.

(** C6: when the visit of a Program, ProcedureDecl or FunctionDecl node
    completes without raising, the current scope is the one it was before
    the visit; a scope table was pushed in between, and neither it nor any
    other table created during the visit can be reached from the analyzer
    any more. *)
Theorem scoped_visit_restores_current_scope fuel node st st' :
  type_name node = "Program" ∨ type_name node = "ProcedureDecl" ∨
    type_name node = "FunctionDecl" →
  wf st → visit fuel node st = Done tt st' →
  current_scope st' = current_scope st ∧
  length (scope_heap st) < length (scope_heap st') ∧
  ∀ a, length (scope_heap st) ≤ a → ¬ reachable st' a.
Proof.
  intros Hk Hwf Hdone.
  pose proof (visit_sound fuel 0 0 (current_scope st) node st) as Hsound.
  rewrite Hdone in Hsound. destruct Hsound as [Hev Hc]; [lia | lia | done |].
  split; [done|]. split.
  - destruct fuel as [|fuel]; [done|]. simpl in Hdone.
    assert (∀ {A} (m : M A) name level base,
              length (scope_heap base) = length (scope_heap st) →
              sound_inside 0 0 (current_scope base) (length (scope_heap base)) m →
              ends (m (entered name level base)) st' →
              length (scope_heap st) < length (scope_heap st')) as Hpush.
    { intros A m name level base Hlen Hm Hend.
      destruct (inside_ends 0 0 m name level base st' Hm) as [[] _];
        [lia | lia | done |].
      simpl in *. rewrite length_app in *. simpl in *. lia. }
    destruct Hk as [Hk|[Hk|Hk]].
    + rewrite dispatch_Program, visit_Program_eq in Hdone by done.
      eapply (Hpush _ _ _ _ st); [done | apply Program_inside_sound |].
      by rewrite Hdone.
    + rewrite dispatch_ProcedureDecl in Hdone by done.
      destruct (visit_ProcedureDecl_prefix (visit fuel) node st st')
        as [(p & c & sc & Hp & Hc' & Hs)|[_ [e He]]];
        [by rewrite Hdone | | congruence].
      rewrite (visit_ProcedureDecl_eq _ _ p st c sc) in Hdone by done.
      eapply (Hpush _ _ _ _ (declared p c sc st)).
      * simpl. apply length_insert.
      * apply ProcedureDecl_inside_sound. lia.
      * by rewrite Hdone.
    + rewrite dispatch_FunctionDecl in Hdone by done.
      by apply visit_FunctionDecl_never_Done in Hdone.
  - intros a Ha Hr.
    pose proof (reachable_old st st' a Hwf (ev_wf _ _ _ _ _ Hev Hwf) Hc Hr). lia.
Qed.

(** ** Procedure declarations *)

Lemma declare_param_eq psym p ps new snew param decl st :
  param_shape param decl →
  current_scope st = Some new → scope_heap st !! new = Some snew →
  sym_heap st !! psym = Some (ProcedureSymbol p ps) → chain_wf st →
  ∃ t, lookup new decl.2 false st = Done t st ∧
       declare_param "type_node" psym param st
       = Done tt (param_declared psym p ps new snew decl.1 t st).
Proof.
  intros (var_node & type_node & Hvn & Hx & Htn & Hty) Hc Hs Hp Hwf.
  destruct (lookup_total st decl.2 Hwf new false) as [t Hlk]; [eauto|].
  exists t. split; [done|]. unfold declare_param.
  rewrite (bind_current_scope_obj _ new) by done.
  rewrite (bind_getattr _ _ _ _ _ Htn), (bind_getattr _ _ _ _ _ Hty), bind_as_name.
  rewrite (bind_lookup _ _ _ _ _ _ Hlk).
  rewrite (bind_getattr _ _ _ _ _ Hvn), (bind_getattr _ _ _ _ _ Hx), bind_as_name.
  rewrite bind_new_Symbol.
  rewrite (bind_current_scope_obj _ new) by done.
  rewrite (bind_insert _ _ (VarSymbol decl.1 t) snew)
    by first [apply new_symbol_at | done].
  unfold params_append, param_declared. simpl.
  rewrite lookup_app_l by (by eapply lookup_lt_Some). rewrite Hp.
  by rewrite Hc.
Qed.

Lemma with_symbol_stable s k a : stable s (with_symbol s k a).
Proof. apply insert_key_stable. Qed.

Lemma chain_wf_with_scope a s s' st :
  scope_heap st !! a = Some s → enclosing_scope s' = enclosing_scope s →
  ∀ syms cur, chain_wf st →
  chain_wf {| sym_heap := syms; scope_heap := <[a := s']> (scope_heap st);
              current_scope := cur |}.
Proof.
  intros Hs He syms cur Hwf a' s0 e Hs0 He0. simpl in Hs0.
  destruct (decide (a = a')) as [Heq|Hne]; [subst a'|].
  - rewrite list_lookup_insert_eq in Hs0 by (by eapply lookup_lt_Some).
    injection Hs0 as <-. apply (Hwf a s e Hs). congruence.
  - rewrite list_lookup_insert_ne in Hs0 by done. by eapply Hwf.
Qed.

(** The loop over the formal parameters, from any state inside the new
    scope [new] in which the procedure symbol sits at [psym]. *)
Lemma declare_params_spec psym p new params decls :
  Forall2 param_shape params decls →
  ∀ st ps snew,
  current_scope st = Some new → scope_heap st !! new = Some snew →
  sym_heap st !! psym = Some (ProcedureSymbol p ps) → chain_wf st →
  ∃ st2 snew2,
    for_each params (declare_param "type_node" psym) st = Done tt st2 ∧
    current_scope st2 = Some new ∧ chain_wf st2 ∧
    length (sym_heap st2) = length (sym_heap st) + length decls ∧
    (∀ a, a < length (sym_heap st) → a ≠ psym →
          sym_heap st2 !! a = sym_heap st !! a) ∧
    sym_heap st2 !! psym
      = Some (ProcedureSymbol p (ps ++ seq (length (sym_heap st)) (length decls))) ∧
    length (scope_heap st2) = length (scope_heap st) ∧
    (∀ a, a ≠ new → scope_heap st2 !! a = scope_heap st !! a) ∧
    scope_heap st2 !! new = Some snew2 ∧ stable snew snew2 ∧
    (∀ k, k ∉ decls.*1 → _symbols snew2 !! k = _symbols snew !! k) ∧
    (∀ k, k ∈ decls.*1 →
          ∃ j, decls.*1 !! j = Some k ∧
               _symbols snew2 !! k = Some (length (sym_heap st) + j)) ∧
    (∀ i decl, decls !! i = Some decl →
       ∃ t sti,
         for_each (take i params) (declare_param "type_node" psym) st
           = Done tt sti ∧
         current_scope sti = Some new ∧
         lookup new decl.2 false sti = Done t sti ∧
         sym_heap st2 !! (length (sym_heap st) + i) = Some (VarSymbol decl.1 t)).
Proof.
  induction 1 as [|param decl params decls Hshape _ IH];
    intros st ps snew Hc Hs Hp Hwf.
  - exists st, snew. simpl. rewrite app_nil_r.
    split_and!; try done; try lia.
    intros k Hk. by apply elem_of_nil in Hk.
  - destruct (declare_param_eq psym p ps new snew param decl st)
      as (t & Hlk & Hstep); try done.
    set (base := length (sym_heap st)) in *.
    set (st1 := param_declared psym p ps new snew decl.1 t st) in *.
    pose proof (lookup_lt_Some _ _ _ Hp) as Hpsym.
    pose proof (lookup_lt_Some _ _ _ Hs) as Hnew.
    assert (length (sym_heap st1) = S base) as Hlen1.
    { simpl. rewrite length_insert, length_app. simpl. lia. }
    assert (scope_heap st1 !! new = Some (with_symbol snew decl.1 base)) as Hs1.
    { simpl. by apply list_lookup_insert_eq. }
    assert (sym_heap st1 !! psym = Some (ProcedureSymbol p (ps ++ [base]))) as Hp1.
    { simpl. apply list_lookup_insert_eq. rewrite length_app. lia. }
    assert (chain_wf st1) as Hwf1.
    { by apply (chain_wf_with_scope new snew). }
    destruct (IH st1 (ps ++ [base])%list (with_symbol snew decl.1 base))
      as (st2 & snew2 & Hrun & Hc2 & Hwf2 & Hlen2 & Hold & Hp2 & Hsl & Hso
          & Hs2 & Hst & Hout & Hin & Hith); try done.
    exists st2, snew2.
    split. { simpl. unfold bind. by rewrite Hstep. }
    split; [done|]. split; [done|].
    split. { rewrite Hlen2, Hlen1. simpl. lia. }
    split.
    { intros a Ha Hne. rewrite Hold by lia. simpl.
      rewrite list_lookup_insert_ne by done. by apply lookup_app_l. }
    split.
    { rewrite Hp2, Hlen1. by rewrite <- app_assoc. }
    split. { rewrite Hsl. simpl. by rewrite length_insert. }
    split.
    { intros a Hne. rewrite Hso by done. simpl.
      by apply list_lookup_insert_ne. }
    split; [done|].
    split. { eapply stable_trans; [apply with_symbol_stable | done]. }
    split.
    { intros k Hk. rewrite fmap_cons in Hk. apply not_elem_of_cons in Hk as [Hne Hk].
      rewrite Hout by done. simpl. by apply lookup_insert_ne. }
    split.
    { intros k Hk. rewrite fmap_cons in Hk.
      destruct (decide (k ∈ decls.*1)) as [Hk'|Hk'].
      - destruct (Hin k Hk') as (j & Hj & Htab).
        exists (S j). split; [done|]. rewrite Htab, Hlen1. f_equal. lia.
      - apply elem_of_cons in Hk as [->|Hk]; [|done].
        exists 0. split; [done|]. rewrite Hout by done. simpl.
        rewrite lookup_insert_eq. f_equal. lia. }
    intros i d Hd. destruct i as [|i]; simpl in Hd.
    + injection Hd as <-. exists t, st. simpl.
      split; [done|]. split; [done|]. split; [done|].
      replace (base + 0) with base by lia.
      rewrite Hold by lia. simpl.
      rewrite list_lookup_insert_ne by lia.
      rewrite lookup_app_r by done. by rewrite Nat.sub_diag.
    + destruct (Hith i d Hd) as (t' & sti & Hrun' & Hci & Hlki & Hsym).
      exists t', sti. split. { simpl. unfold bind. by rewrite Hstep. }
      split; [done|]. split; [done|].
      rewrite <- Hsym. f_equal. lia.
Qed.

Lemma wf_declared p c sc st :
  wf st → scope_heap st !! c = Some sc → wf (declared p c sc st).
Proof.
  intros [Hch Hcur] Hs. constructor.
  - by apply (chain_wf_with_scope c sc).
  - intros c' Hc'. simpl. rewrite length_insert. by apply Hcur.
Qed.

(** C5: visiting a ProcedureDecl binds the procedure's name to a new
    ProcedureSymbol in the scope that is current (the enclosing scope)
    before the new scope is pushed and the body visited, so the name
    resolves from inside the body; every formal parameter has its type
    looked up from the new scope, gets a VariableSymbol that is bound in
    the new scope, and the symbols are appended to the ProcedureSymbol's
    parameters in declaration order; when the visit completes, the
    enclosing scope's table is what it was with the procedure's name added,
    so it binds a parameter's name only if it did before or if that name is
    the procedure's. *)
Theorem visit_ProcedureDecl_spec fuel node p params decls body st c sc :
  type_name node = "ProcedureDecl" →
  attr node "procName" = Some (VStr p) →
  attr node "params" = Some (VList params) →
  attr node "blockNode" = Some body →
  Forall2 param_shape params decls →
  wf st → current_scope st = Some c → scope_heap st !! c = Some sc →
  let psym := length (sym_heap st) in
  let new := length (scope_heap st) in
  ∃ st2 snew,
    visit (S fuel) node st = (visit fuel body ;; leave_scope) st2 ∧
    current_scope st2 = Some new ∧
    scope_heap st2 !! c = Some (with_symbol sc p psym) ∧
    sym_heap st2 !! psym
      = Some (ProcedureSymbol p (seq (psym + 3) (length decls))) ∧
    (∃ r, lookup new p false st2 = Done (Some r) st2) ∧
    scope_heap st2 !! new = Some snew ∧ enclosing_scope snew = Some c ∧
    (∀ i decl, decls !! i = Some decl →
       ∃ t sti j,
         for_each (take i params) (declare_param "type_node" psym)
           (entered p (scope_level sc + 1) (declared p c sc st)) = Done tt sti ∧
         current_scope sti = Some new ∧
         lookup new decl.2 false sti = Done t sti ∧
         sym_heap st2 !! (psym + 3 + i) = Some (VarSymbol decl.1 t) ∧
         decls.*1 !! j = Some decl.1 ∧
         _symbols snew !! decl.1 = Some (psym + 3 + j)) ∧
    (∀ st', visit (S fuel) node st = Done tt st' →
       current_scope st' = Some c ∧
       scope_heap st' !! c = Some (with_symbol sc p psym) ∧
       ∀ x, x ≠ p → _symbols (with_symbol sc p psym) !! x = _symbols sc !! x).
Proof.
  intros Hk Hp Hparams Hbody Hshapes Hwf Hc Hs psym new.
  pose proof (lookup_lt_Some _ _ _ Hs) as Hclt.
  set (st1 := entered p (scope_level sc + 1) (declared p c sc st)).
  assert (length (scope_heap (declared p c sc st)) = new) as Hnew
    by (simpl; apply length_insert).
  assert (current_scope st1 = Some new) as Hc1 by (simpl; by rewrite length_insert).
  assert (wf st1) as Hwf1.
  { eapply (ev_wf 0 0); [apply evolves_entered; lia|]. by apply wf_declared. }
  set (snew0 := {| _symbols := <["REAL" := S (psym + 1)]> (<["INTEGER" := psym + 1]> ∅);
                   scope_name := p; scopeType := TokenType_class;
                   scope_level := scope_level sc + 1;
                   enclosing_scope := Some c;
                   hasReturnStatement := false |}).
  assert (scope_heap st1 !! new = Some snew0) as Hs1.
  { simpl. rewrite lookup_app_r by (rewrite length_insert; unfold new; lia).
    rewrite length_insert. unfold new. rewrite Nat.sub_diag. simpl.
    unfold snew0. rewrite length_app, Hc. simpl. do 3 f_equal. }
  assert (sym_heap st1 !! psym = Some (ProcedureSymbol p [])) as Hp1.
  { simpl. rewrite lookup_app_l by (rewrite length_app; simpl; unfold psym; lia).
    rewrite lookup_app_r by done. unfold psym. by rewrite Nat.sub_diag. }
  assert (length (sym_heap st1) = psym + 3) as Hlen1.
  { simpl. rewrite !length_app. simpl. unfold psym. lia. }
  destruct (declare_params_spec psym p new params decls Hshapes st1 [] snew0)
    as (st2 & snew & Hrun & Hc2 & Hwf2 & Hlen2 & Hold & Hp2 & Hsl & Hso
        & Hs2 & Hst & Hout & Hin & Hith); try done; [apply Hwf1|].
  rewrite Hlen1 in *. simpl in Hp2.
  assert (scope_heap st2 !! c = Some (with_symbol sc p psym)) as Hsc2.
  { rewrite Hso by (unfold new; lia). simpl.
    rewrite lookup_app_l by (rewrite length_insert; lia).
    by apply list_lookup_insert_eq. }
  assert (enclosing_scope snew = Some c) as Henc
    by (destruct Hst; simpl in *; congruence).
  assert (visit (S fuel) node st = (visit fuel body ;; leave_scope) st2) as Heq.
  { simpl. rewrite dispatch_ProcedureDecl by done.
    rewrite (visit_ProcedureDecl_eq _ _ p st c sc) by done.
    unfold ProcedureDecl_inside.
    rewrite (bind_getattr _ _ _ _ _ Hparams), bind_iter_list.
    fold st1. fold psym. unfold bind at 1. rewrite Hrun.
    unfold ProcedureDecl_body. by rewrite (bind_getattr _ _ _ _ _ Hbody). }
  exists st2, snew. split_and!; try done.
  - rewrite (lookup_unfold st2 new snew) by done.
    destruct (_symbols snew !! p); [eauto|]. rewrite Henc.
    rewrite (lookup_unfold st2 c (with_symbol sc p psym)) by done.
    simpl. rewrite lookup_insert_eq. eauto.
  - intros i decl Hd. destruct (Hith i decl Hd) as (t & sti & Hi1 & Hi2 & Hi3 & Hi4).
    destruct (Hin decl.1) as (j & Hj1 & Hj2).
    { apply list_elem_of_fmap. exists decl. split; [done|].
      apply list_elem_of_lookup. eauto. }
    by exists t, sti, j.
  - intros st' Hdone. rewrite Heq in Hdone.
    assert (sound_inside 0 new (Some c) new (visit fuel body ;; leave_scope)) as Hin'.
    { apply inside_bind; [apply visit_sound | intros _; apply inside_leave]. }
    specialize (Hin' st2). rewrite Hdone in Hin'.
    pose proof (lookup_lt_Some _ _ _ Hs2) as Hnew2.
    destruct Hin' as [Hev Hcur]; [lia | lia | done | by exists snew |].
    split; [done|]. split.
    + rewrite (ev_scope_old _ _ _ _ _ Hev) by (first [done | intros [= ->]; lia]).
      done.
    + intros x Hx. simpl. by apply lookup_insert_ne.
Qed.

(** ** The properties at work on the example programs *)

Lemma wf_empty_state : wf empty_state.
Proof. constructor; [by intros a s e Hs | by intros c Hc]. Qed.

Lemma wf_entered name level st : wf st → wf (entered name level st).
Proof. intros Hwf. eapply (ev_wf 0 0); [apply evolves_entered; lia | done]. Qed.

Lemma wf_initial : wf Example.initial.
Proof. apply wf_entered, wf_empty_state. Qed.

Lemma wf_global : wf Example.global.
Proof. apply wf_entered, wf_initial. Qed.

(** The scenarios of the specification. *)
Example analysis_of_declared_variable_succeeds :
  ∃ st', analyze 10 Example.program_assigning_x = Done tt st' ∧
         current_scope st' = Some 0.
Proof. eexists. split; vm_compute; reflexivity. Qed.

Example analysis_of_duplicate_fails :
  ∃ st', analyze 10 Example.program_with_duplicate
         = Raised (SemanticError DUPLICATE_ID (Node.Token "ID" (VStr "x"))) st'.
Proof. eexists. vm_compute. reflexivity. Qed.

Example analysis_of_undeclared_fails :
  ∃ st', analyze 10 Example.program_assigning_undeclared
         = Raised (SemanticError ID_NOT_FOUND (Node.Token "ASSIGN" (VStr ":="))) st'.
Proof. eexists. vm_compute. reflexivity. Qed.

Example analysis_of_procedure_succeeds :
  ∃ st', analyze 10 Example.program_with_procedure = Done tt st' ∧
         current_scope st' = Some 0 ∧ length (scope_heap st') = 3.
Proof. eexists. split; [|split]; vm_compute; reflexivity. Qed.

Lemma lookup_spec_witness :
  lookup 1 "INTEGER" true Example.global
  = Done (_symbols Example.global_table !! "INTEGER") Example.global.
Proof.
  apply (lookup_spec Example.global 1 Example.global_table "INTEGER").
  - apply wf_global.
  - reflexivity.
Defined.

Lemma visit_VarDecl_spec_witness :
  ∃ type_symbol,
    lookup 1 "INTEGER" false Example.global = Done type_symbol Example.global ∧
    visit 1 Example.declare_x Example.global
    = Done tt (with_scope 1 (with_symbol Example.global_table "x" 4)
                 (with_new_symbol (VarSymbol "x" type_symbol) Example.global)).
Proof.
  destruct (visit_VarDecl_spec 0 Example.declare_x (Node.Type_ "INTEGER")
              (Node.Var "x") "INTEGER" "x" (Node.Token "ID" (VStr "x"))
              Example.global 1 Example.global_table)
    as (type_symbol & Hlk & _ & Hdone);
    [reflexivity | reflexivity | reflexivity | reflexivity | reflexivity
    | reflexivity | apply wf_global | reflexivity | reflexivity |].
  exists type_symbol. split; [exact Hlk|]. apply Hdone. vm_compute. reflexivity.
Defined.

Lemma duplicate_leaves_tables_unchanged_witness :
  ∃ st', visit 1 Example.declare_x Example.global_with_x
         = Raised (SemanticError DUPLICATE_ID (Node.Token "ID" (VStr "x"))) st' ∧
         scope_heap st' = scope_heap Example.global_with_x ∧
         current_scope st' = current_scope Example.global_with_x.
Proof.
  eexists. split; [vm_compute; reflexivity|].
  match goal with
  | |- scope_heap ?st' = _ ∧ _ =>
      destruct (duplicate_leaves_tables_unchanged 1 Example.declare_x
                  (Node.Token "ID" (VStr "x")) Example.global_with_x st' eq_refl)
        as (Hs & Hc & _); [vm_compute; reflexivity|]
  end.
  split; [exact Hs | exact Hc].
Defined.

Lemma scoped_visit_restores_current_scope_witness :
  ∃ st', visit 10 Example.empty_program Example.initial = Done tt st' ∧
         current_scope st' = current_scope Example.initial ∧
         ¬ reachable st' 1.
Proof.
  eexists. split; [vm_compute; reflexivity|].
  match goal with
  | |- current_scope ?st' = _ ∧ _ =>
      destruct (scoped_visit_restores_current_scope 10 Example.empty_program
                  Example.initial st' (or_introl eq_refl) wf_initial)
        as (Hc & _ & Hr); [vm_compute; reflexivity|]
  end.
  split; [exact Hc|]. apply Hr. vm_compute. lia.
Defined.

Lemma pushed_scope_level_witness :
  ∃ st' pushed,
    visit 10 Example.procedure_p Example.global = Done tt st' ∧
    scope_heap st' !! 2 = Some pushed ∧
    scope_level pushed = (scope_level Example.global_table + 1)%Z ∧
    enclosing_scope pushed = Some 1.
Proof.
  eexists _, _. split; [vm_compute; reflexivity|].
  match goal with
  | |- scope_heap ?st' !! 2 = Some _ ∧ _ => set (final := st')
  end.
  split; [vm_compute; reflexivity|].
  match goal with
  | |- scope_level ?s' = _ ∧ _ =>
      destruct (pushed_scope_level 10 Example.procedure_p Example.global final s')
        as [_ Hproc]
  end.
  - vm_compute. reflexivity.
  - vm_compute. reflexivity.
  - destruct (Hproc (or_introl eq_refl)) as (c & sc & Hc & Hsc & Hl & He).
    injection Hc as <-. injection Hsc as <-. split; [exact Hl | exact He].
Defined.

Lemma scope_kind_is_never_FUNCTION_witness :
  ∃ st' s,
    ends (analyze 10 Example.program_with_function) st' ∧
    scope_heap st' !! 2 = Some s ∧
    kind_eqb (scopeType s) (TokenType_member FUNCTION) = false.
Proof.
  eexists _, _. split; [vm_compute; reflexivity|].
  match goal with
  | |- scope_heap ?st' !! 2 = Some _ ∧ _ => set (final := st')
  end.
  split; [vm_compute; reflexivity|].
  match goal with
  | |- kind_eqb (scopeType ?table) _ = false =>
      refine (proj2 (proj2 scope_kind_is_never_FUNCTION 10
                       Example.program_with_function final _ 2 table _))
  end.
  - vm_compute. reflexivity.
  - vm_compute. reflexivity.
Defined.

Lemma visit_ProcedureDecl_spec_witness :
  ∃ st2 snew,
    visit 10 Example.procedure_p Example.global
    = (visit 9 (Node.Block [] (Node.Compound [Node.NoOp])) ;; leave_scope) st2 ∧
    scope_heap st2 !! 1 = Some (with_symbol Example.global_table "p" 4) ∧
    sym_heap st2 !! 4 = Some (ProcedureSymbol "p" [7; 8]) ∧
    scope_heap st2 !! 2 = Some snew ∧ enclosing_scope snew = Some 1.
Proof.
  destruct (visit_ProcedureDecl_spec 9 Example.procedure_p "p"
              [Node.Param (Node.Var "a") (Node.Type_ "INTEGER");
               Node.Param (Node.Var "b") (Node.Type_ "REAL")]
              [("a", "INTEGER"); ("b", "REAL")]
              (Node.Block [] (Node.Compound [Node.NoOp]))
              Example.global 1 Example.global_table)
    as (st2 & snew & Heq & _ & Hc & Hp & _ & Hnew & Henc & _).
  - reflexivity.
  - reflexivity.
  - reflexivity.
  - reflexivity.
  - repeat constructor; eexists _, _; repeat split; reflexivity.
  - apply wf_global.
  - reflexivity.
  - reflexivity.
  - exists st2, snew. repeat split; assumption.
Defined.

(** * Further properties of the scope tables and of the handlers *)

(** ** insert and lookup *)

Lemma lookup_own_table st self s name :
  scope_heap st !! self = Some s →
  lookup self name true st = Done (_symbols s !! name) st.
Proof.
  intros Hs. unfold lookup. cbn [lookup_fuel]. unfold bind, scope_at.
  rewrite Hs. by destruct (_symbols s !! name).
Qed.

Lemma lookup_found_locally st self s name symbol only :
  scope_heap st !! self = Some s → _symbols s !! name = Some symbol →
  lookup self name only st = Done (Some symbol) st.
Proof.
  intros Hs Hn. unfold lookup. cbn [lookup_fuel]. unfold bind, scope_at.
  by rewrite Hs, Hn.
Qed.

(** X1: [insert] never fails on existing objects and is seen by the next
    [lookup]: the name of the inserted symbol resolves to it in the table,
    in both modes, whatever the table bound to that name before (the last
    insertion wins); every other name of the table, every other table and
    every symbol is as before. *)
Theorem insert_then_lookup self symbol sym s st :
  sym_heap st !! symbol = Some sym → scope_heap st !! self = Some s →
  ∃ st',
    insert self symbol st = Done tt st' ∧
    sym_heap st' = sym_heap st ∧ current_scope st' = current_scope st ∧
    (∀ only, lookup self (Symbol_name sym) only st' = Done (Some symbol) st') ∧
    (∀ name, name ≠ Symbol_name sym →
       lookup self name true st' = Done (_symbols s !! name) st') ∧
    (∀ a, a ≠ self → scope_heap st' !! a = scope_heap st !! a).
Proof.
  intros Hsym Hs. pose proof (lookup_lt_Some _ _ _ Hs) as Hlt.
  exists (with_scope self (with_symbol s (Symbol_name sym) symbol) st).
  assert (scope_heap (with_scope self (with_symbol s (Symbol_name sym) symbol) st)
            !! self = Some (with_symbol s (Symbol_name sym) symbol)) as Hs'
    by (simpl; by apply list_lookup_insert_eq).
  split_and!; try done.
  - by apply insert_eq.
  - intros only. apply (lookup_found_locally _ _ _ _ _ _ Hs').
    simpl. apply lookup_insert_eq.
  - intros name Hne. rewrite (lookup_own_table _ _ _ _ Hs'). simpl.
    by rewrite lookup_insert_ne.
  - intros a Hne. simpl. by apply list_lookup_insert_ne.
Qed.

(** ** References: Var and Assign *)

Lemma dispatch_Var visit node :
  type_name node = "Var" → dispatch visit node = visit_Var node.
Proof. intros H. unfold dispatch. by rewrite H. Qed.

Lemma dispatch_Assign visit node :
  type_name node = "Assign" → dispatch visit node = visit_Assign visit node.
Proof. intros H. unfold dispatch. by rewrite H. Qed.

(** X2: visiting a Var resolves its name through the scope chain: a name bound
    somewhere on the chain is accepted and nothing changes; a name bound
    nowhere raises IdentifierNotFound at the node's token, and nothing has
    changed either. *)
Theorem visit_Var_spec fuel node x token st c :
  type_name node = "Var" →
  attr node "value" = Some (VStr x) → attr node "token" = Some token →
  chain_wf st → current_scope st = Some c → is_Some (scope_heap st !! c) →
  ∃ r, lookup c x false st = Done r st ∧
       visit (S fuel) node st =
         match r with
         | Some _ => Done tt st
         | None => Raised (SemanticError ID_NOT_FOUND token) st
         end.
Proof.
  intros Hk Hx Htok Hwf Hc Hs.
  destruct (lookup_total st x Hwf c false Hs) as [r Hlk].
  exists r. split; [done|]. simpl. rewrite dispatch_Var by done.
  unfold visit_Var.
  rewrite (bind_getattr _ _ _ _ _ Hx), bind_as_name.
  rewrite (bind_current_scope_obj _ c) by done.
  rewrite (bind_lookup _ _ _ _ _ _ Hlk).
  destruct r; [done|]. by rewrite (bind_getattr _ _ _ _ _ Htok).
Qed.

(** X3: visiting an Assign in a scope made by the analyzer (its kind field is
    the enumeration class) resolves the target like a Var, before the
    right-hand side is looked at: an unbound target raises
    IdentifierNotFound at the token of the Assign node and the right-hand
    side is not visited; a bound target leaves exactly the visit of the
    right-hand side. *)
Theorem visit_Assign_spec fuel node left x token right st c s :
  type_name node = "Assign" →
  attr node "left" = Some left → attr left "value" = Some (VStr x) →
  attr node "token" = Some token → attr node "right" = Some right →
  chain_wf st → current_scope st = Some c → scope_heap st !! c = Some s →
  scopeType s = TokenType_class →
  ∃ r, lookup c x false st = Done r st ∧
       visit (S fuel) node st =
         match r with
         | Some _ => visit fuel right st
         | None => Raised (SemanticError ID_NOT_FOUND token) st
         end.
Proof.
  intros Hk Hl Hx Htok Hr Hwf Hc Hs Hkind.
  destruct (lookup_total st x Hwf c false) as [r Hlk]; [eauto|].
  exists r. split; [done|]. simpl. rewrite dispatch_Assign by done.
  unfold visit_Assign.
  rewrite (bind_getattr _ _ _ _ _ Hl), (bind_getattr _ _ _ _ _ Hx).
  rewrite (bind_current_scope_obj _ c) by done.
  rewrite (bind_scope_at _ s) by done.
  rewrite Hkind. simpl kind_eqb. cbv iota. rewrite bind_ret. cbv iota.
  unfold bind at 1. rewrite bind_as_name.
  rewrite (bind_current_scope_obj _ c) by done.
  rewrite (bind_lookup _ _ _ _ _ _ Hlk).
  destruct r.
  - unfold bind at 1. simpl. unfold getattr. by rewrite Hr.
  - unfold bind at 1. simpl. unfold bind, getattr. by rewrite Htok.
Qed.

(** ** Statement lists: the first error ends the traversal *)

Lemma for_each_app {A} (xs ys : list A) (body : A → M unit) st :
  for_each (xs ++ ys) body st = (for_each xs body ;; for_each ys body) st.
Proof.
  revert st. induction xs as [|x xs IH]; intros st; simpl; [done|].
  unfold bind. destruct (body x st) as [[] st1|e st1| |]; try done.
Qed.

Lemma visit_Compound_eq fuel children st :
  visit (S fuel) (Node.Compound children) st = for_each children (visit fuel) st.
Proof. reflexivity. Qed.

(** X4: a compound statement is analysed child by child, and an exception ends
    it: when the children [xs] alone raise, the compound of [xs] followed
    by any [ys] raises the same exception in the same state (no child of
    [ys] is visited); when [xs] complete, the analysis goes on with [ys]
    from the state that [xs] left. *)
Theorem visit_Compound_app fuel xs ys st :
  (∀ e st', visit (S fuel) (Node.Compound xs) st = Raised e st' →
            visit (S fuel) (Node.Compound (xs ++ ys)) st = Raised e st') ∧
  (∀ st1, visit (S fuel) (Node.Compound xs) st = Done tt st1 →
          visit (S fuel) (Node.Compound (xs ++ ys)) st
          = visit (S fuel) (Node.Compound ys) st1).
Proof.
  rewrite !visit_Compound_eq, for_each_app. unfold bind.
  split.
  - intros e st' H. by rewrite H.
  - intros st1 H. rewrite H. by rewrite visit_Compound_eq.
Qed.

(** ** Declaration followed by reference *)

(** X5: a variable that has just been declared resolves, from the scope of the
    declaration, to the symbol that the declaration constructed, whatever
    the enclosing scopes bind to the name; so a reference to it right after
    the declaration is accepted. *)
Theorem declared_variable_resolves fuel fuel' decl type_node var_node ty x
    token ref ref_token st c s :
  type_name decl = "VarDecl" →
  attr decl "type_node" = Some type_node →
  attr type_node "value" = Some (VStr ty) →
  attr decl "var_node" = Some var_node →
  attr var_node "value" = Some (VStr x) →
  attr var_node "token" = Some token →
  type_name ref = "Var" →
  attr ref "value" = Some (VStr x) → attr ref "token" = Some ref_token →
  chain_wf st → current_scope st = Some c → scope_heap st !! c = Some s →
  _symbols s !! x = None →
  ∃ st' type_symbol,
    visit (S fuel) decl st = Done tt st' ∧
    lookup c x false st' = Done (Some (length (sym_heap st))) st' ∧
    sym_heap st' !! length (sym_heap st) = Some (VarSymbol x type_symbol) ∧
    visit (S fuel') ref st' = Done tt st'.
Proof.
  intros Hk Htn Hty Hvn Hx Htok Hrk Hrx Hrtok Hwf Hc Hs Hfree.
  destruct (visit_VarDecl_eq decl type_node var_node ty x token st c s)
    as (type_symbol & Hlk & Heq); try done.
  rewrite Hfree in Heq.
  set (st' := with_scope c (with_symbol s x (length (sym_heap st)))
                (with_new_symbol (VarSymbol x type_symbol) st)) in *.
  pose proof (lookup_lt_Some _ _ _ Hs) as Hlt.
  assert (scope_heap st' !! c = Some (with_symbol s x (length (sym_heap st))))
    as Hs' by (simpl; by apply list_lookup_insert_eq).
  assert (lookup c x false st' = Done (Some (length (sym_heap st))) st') as Hlk'.
  { apply (lookup_found_locally _ _ _ _ _ _ Hs'). simpl. apply lookup_insert_eq. }
  exists st', type_symbol. split_and!.
  - simpl. by rewrite dispatch_VarDecl.
  - done.
  - simpl. rewrite lookup_app_r by done. by rewrite Nat.sub_diag.
  - simpl. rewrite dispatch_Var by done. unfold visit_Var.
    rewrite (bind_getattr _ _ _ _ _ Hrx), bind_as_name.
    rewrite (bind_current_scope_obj _ c) by done.
    by rewrite (bind_lookup _ _ _ _ _ _ Hlk').
Qed.

(** ** What a visit can change *)

(** X6: whatever node is visited and however the visit ends, the heaps only
    grow, every symbol that existed is untouched, every table that existed
    other than the current scope's is untouched, and a table that existed
    keeps its level and enclosing scope and loses no name; when the visit
    returns, the current scope is the one it started in. *)
Theorem visit_frame fuel node st st' :
  ends (visit fuel node st) st' →
  length (sym_heap st) ≤ length (sym_heap st') ∧
  (∀ a, a < length (sym_heap st) → sym_heap st' !! a = sym_heap st !! a) ∧
  length (scope_heap st) ≤ length (scope_heap st') ∧
  (∀ a, a < length (scope_heap st) → Some a ≠ current_scope st →
        scope_heap st' !! a = scope_heap st !! a) ∧
  (∀ a s, scope_heap st !! a = Some s →
     ∃ s', scope_heap st' !! a = Some s' ∧
           scope_level s' = scope_level s ∧
           enclosing_scope s' = enclosing_scope s ∧
           ∀ k, is_Some (_symbols s !! k) → is_Some (_symbols s' !! k)) ∧
  (∀ u, visit fuel node st = Done u st' → current_scope st' = current_scope st).
Proof.
  intros Hend. pose proof (visit_ends_evolves _ _ _ _ Hend) as [].
  split_and!; try done.
  - intros a s Hs. destruct (ev_stable0 a s Hs) as (s' & Hs' & []). eauto.
  - intros u Hdone.
    pose proof (visit_sound fuel 0 0 (current_scope st) node st) as Hsound.
    rewrite Hdone in Hsound. destruct Hsound as [_ Hc]; [lia | lia | done | done].
Qed.

(** X7: a name that is visible from a scope stays visible from it through any
    visit: no handler removes a binding or redirects an enclosing scope. *)
Theorem visible_names_stay_visible fuel node st st' name :
  wf st → ends (visit fuel node st) st' →
  ∀ a r, lookup a name false st = Done (Some r) st →
         ∃ r', lookup a name false st' = Done (Some r') st'.
Proof.
  intros Hwf Hend. pose proof (visit_ends_evolves _ _ _ _ Hend) as Hev.
  pose proof (wf_chain _ (ev_wf _ _ _ _ _ Hev Hwf)) as Hch'.
  pose proof (wf_chain _ Hwf) as Hch.
  intros a. induction (lt_wf a) as [a _ IH]. intros r Hlk.
  destruct (scope_heap st !! a) as [s|] eqn:Hs.
  2: { unfold lookup in Hlk. cbn [lookup_fuel] in Hlk.
       unfold bind, scope_at in Hlk. by rewrite Hs in Hlk. }
  destruct (ev_stable _ _ _ _ _ Hev a s Hs) as (s' & Hs' & Hst).
  rewrite (lookup_unfold st a s) in Hlk by done.
  rewrite (lookup_unfold st' a s') by done.
  destruct (_symbols s' !! name) as [y|] eqn:Hy; [eauto|].
  destruct (_symbols s !! name) as [z|] eqn:Hz.
  { destruct (stable_keys _ _ Hst name) as [y Hy']; [by rewrite Hz; eauto|].
    congruence. }
  rewrite (stable_enclosing _ _ Hst).
  destruct (enclosing_scope s) as [e|] eqn:He; [|done].
  apply (IH e (Hch a s e Hs He) r Hlk).
Qed.

(** ** The states that an analysis reaches *)

(** X8: in every state in which an analysis ends, normally or by an exception,
    the references between scope tables are well formed, so that [lookup]
    from any existing table returns; and every table binds INTEGER and
    REAL itself, so that both names resolve from every scope, in both
    modes, whatever the program declared. *)
Theorem analysis_states fuel root st' :
  ends (analyze fuel root) st' →
  wf st' ∧
  (∀ a name only, is_Some (scope_heap st' !! a) →
     ∃ r, lookup a name only st' = Done r st') ∧
  (∀ a only, is_Some (scope_heap st' !! a) →
     (∃ r, lookup a "INTEGER" only st' = Done (Some r) st') ∧
     (∃ r, lookup a "REAL" only st' = Done (Some r) st')).
Proof.
  intros Hend. pose proof (analysis_scopes_ok _ _ _ Hend) as Hok.
  destruct initial_state_ok as (st0 & Hinit & Hwf0 & _ & _).
  unfold analyze, bind in Hend. rewrite Hinit in Hend.
  apply visit_ends_evolves in Hend.
  pose proof (ev_wf _ _ _ _ _ Hend Hwf0) as Hwf.
  split; [done|]. split.
  - intros a name only Hs. apply lookup_total; [apply Hwf | done].
  - intros a only [s Hs]. destruct (Hok a s Hs) as [_ _ [i Hi] [r Hr]].
    split; eexists; by eapply lookup_found_locally.
Qed.

(** ** Function declarations never pass *)

Lemma dispatch_Block visit node :
  type_name node = "Block" → dispatch visit node = visit_Block visit node.
Proof. intros H. unfold dispatch. by rewrite H. Qed.

Lemma for_each_Done_each {A} (l : list A) (body : A → M unit) x :
  x ∈ l → ∀ st u st', for_each l body st = Done u st' →
  ∃ st1 st2, body x st1 = Done tt st2.
Proof.
  induction l as [|y l IH]; intros Hx st u st' H.
  - by apply elem_of_nil in Hx.
  - simpl in H. apply bind_Done in H as ([] & st1 & Hy & H).
    apply elem_of_cons in Hx as [->|Hx]; [eauto|]. by eapply IH.
Qed.

(** X9: the visit of a FunctionDecl never returns normally, whatever the
    declaration contains: its last statement reads an attribute that scope
    tables do not have.  Hence neither does the visit of a Block that has
    such a declaration among its declarations, nor that of a Program whose
    block is such a Block: no program that declares a function at its top
    level passes the analysis. *)
Theorem function_declarations_never_pass f :
  type_name f = "FunctionDecl" →
  (∀ fuel st u st', visit fuel f st ≠ Done u st') ∧
  (∀ fuel block decls st u st',
     type_name block = "Block" →
     attr block "declarations" = Some (VList decls) → f ∈ decls →
     visit fuel block st ≠ Done u st') ∧
  (∀ fuel program block decls st u st',
     type_name program = "Program" → attr program "block" = Some block →
     type_name block = "Block" →
     attr block "declarations" = Some (VList decls) → f ∈ decls →
     visit fuel program st ≠ Done u st').
Proof.
  intros Hf.
  assert (∀ fuel st u st', visit fuel f st ≠ Done u st') as Hfun.
  { intros [|fuel] st [] st' H; [done|]. simpl in H.
    rewrite dispatch_FunctionDecl in H by done.
    by apply visit_FunctionDecl_never_Done in H. }
  assert (∀ fuel block decls st u st',
            type_name block = "Block" →
            attr block "declarations" = Some (VList decls) → f ∈ decls →
            visit fuel block st ≠ Done u st') as Hblock.
  { intros [|fuel] block decls st u st' Hk Hd Hin H; [done|]. simpl in H.
    rewrite dispatch_Block in H by done. unfold visit_Block in H.
    rewrite (bind_getattr _ _ _ _ _ Hd), bind_iter_list in H.
    apply bind_Done in H as ([] & st1 & Hloop & _).
    destruct (for_each_Done_each _ _ f Hin _ _ _ Hloop) as (s1 & s2 & Hdone).
    by apply Hfun in Hdone. }
  split; [done|]. split; [done|].
  intros [|fuel] program block decls st u st' Hk Hb Hkb Hd Hin H; [done|].
  simpl in H. rewrite dispatch_Program, visit_Program_eq in H by done.
  unfold Program_inside in H. rewrite (bind_getattr _ _ _ _ _ Hb) in H.
  apply bind_Done in H as ([] & st1 & Hbody & _).
  by eapply Hblock in Hbody.
Qed.

(** ** Expressions built by the AST module *)

(** What the constructor [Num] of [ast.py] builds: it reads [token.value],
    so a token without that attribute makes it raise. *)
Lemma Ast_Num_eq token st :
  Ast.Num token st =
    match attr token "value" with
    | Some value => Done (VObj "Num" [("token", token); ("value", value)]) st
    | None => Raised (AttributeError (type_name token) "value") st
    end.
Proof. unfold Ast.Num, bind, getattr. by destruct (attr token "value"). Qed.

(** X10: an expression tree built with the three constructors of [ast.py] is
    analysed, with fuel above its depth, without any change of state, and
    the outcome is decided by the shape alone: a tree of [Num] and [BinOp]
    nodes is accepted in every state, and a tree in which a [UnaryOp]
    occurs raises AttributeError (the handler reads [right], the node has
    [expr]). *)
Theorem ast_expr_analysis e d u :
  ast_expr e d u → ∀ fuel st, d < fuel →
  visit fuel e st =
    if u then Raised (AttributeError "UnaryOp" "right") st else Done tt st.
Proof.
  induction 1 as [token value Hv|left op right dl dr ul ur Hl IHl Hr IHr
                 |op expr d u He IH];
    intros [|fuel] st Hfuel; try lia.
  - reflexivity.
  - change (visit (S fuel) (Ast.BinOp left op right) st)
      with ((visit fuel left ;; visit fuel right) st).
    unfold bind. rewrite IHl by lia. destruct ul; [done|].
    by rewrite IHr by lia.
  - reflexivity.
Qed.

(** ** What the handlers do not look at *)

Lemma dispatch_While visit node :
  type_name node = "While" → dispatch visit node = visit_While visit node.
Proof. intros H. unfold dispatch. by rewrite H. Qed.

Lemma dispatch_ProcedureCall visit node :
  type_name node = "ProcedureCall" →
  dispatch visit node = visit_ProcedureCall visit node.
Proof. intros H. unfold dispatch. by rewrite H. Qed.

Lemma dispatch_Call visit node :
  type_name node = "Call" → dispatch visit node = visit_Call visit node.
Proof. intros H. unfold dispatch. by rewrite H. Qed.

(** X11: the analysis of a While node depends on its condition only, and that of
    a procedure or function call on its actual parameters only: two While
    nodes with the same condition, or two calls with the same arguments,
    are analysed alike in every state, whatever else they hold.  The body of
    a loop is not analysed, and the name of the callee is not resolved. *)
Theorem unvisited_parts_do_not_matter fuel node node' st :
  (type_name node = "While" ∧ type_name node' = "While" ∧
   attr node "condition" = attr node' "condition") ∨
  (type_name node = "ProcedureCall" ∧ type_name node' = "ProcedureCall" ∧
   attr node "actual_params" = attr node' "actual_params") ∨
  (type_name node = "Call" ∧ type_name node' = "Call" ∧
   attr node "actual_params" = attr node' "actual_params") →
  visit fuel node st = visit fuel node' st.
Proof.
  intros H. destruct fuel as [|fuel]; [done|]. simpl.
  destruct H as [(Hk & Hk' & Ha)|[(Hk & Hk' & Ha)|(Hk & Hk' & Ha)]].
  - rewrite !dispatch_While by done.
    unfold visit_While, bind, getattr. by rewrite Ha, Hk, Hk'.
  - rewrite !dispatch_ProcedureCall by done.
    unfold visit_ProcedureCall, bind, getattr. by rewrite Ha, Hk, Hk'.
  - rewrite !dispatch_Call by done.
    unfold visit_Call, bind, getattr. by rewrite Ha, Hk, Hk'.
Qed.

(** ** Parameters and local variables share one scope *)

(** The state in which the body of a procedure is visited: the run of the
    handler up to the body, the new scope and what its table binds. *)
Lemma visit_ProcedureDecl_params fuel node p params decls body st c sc :
  type_name node = "ProcedureDecl" →
  attr node "procName" = Some (VStr p) →
  attr node "params" = Some (VList params) →
  attr node "blockNode" = Some body →
  Forall2 param_shape params decls →
  wf st → current_scope st = Some c → scope_heap st !! c = Some sc →
  ∃ st2 snew,
    visit (S fuel) node st = (visit fuel body ;; leave_scope) st2 ∧
    current_scope st2 = Some (length (scope_heap st)) ∧ chain_wf st2 ∧
    scope_heap st2 !! length (scope_heap st) = Some snew ∧
    (∀ k, k ∈ decls.*1 → is_Some (_symbols snew !! k)) ∧
    for_each params (declare_param "type_node" (length (sym_heap st)))
      (entered p (scope_level sc + 1) (declared p c sc st)) = Done tt st2.
Proof.
  intros Hk Hp Hparams Hbody Hshapes Hwf Hc Hs.
  set (psym := length (sym_heap st)). set (new := length (scope_heap st)).
  set (st1 := entered p (scope_level sc + 1) (declared p c sc st)).
  assert (current_scope st1 = Some new) as Hc1 by (simpl; by rewrite length_insert).
  assert (wf st1) as Hwf1.
  { eapply (ev_wf 0 0); [apply evolves_entered; lia|]. by apply wf_declared. }
  assert (is_Some (scope_heap st1 !! new)) as [snew0 Hs1].
  { apply lookup_lt_is_Some_2. simpl. rewrite length_app, length_insert.
    simpl. unfold new. lia. }
  assert (sym_heap st1 !! psym = Some (ProcedureSymbol p [])) as Hp1.
  { simpl. rewrite lookup_app_l by (rewrite length_app; simpl; unfold psym; lia).
    rewrite lookup_app_r by done. unfold psym. by rewrite Nat.sub_diag. }
  destruct (declare_params_spec psym p new params decls Hshapes st1 [] snew0)
    as (st2 & snew & Hrun & Hc2 & Hwf2 & _ & _ & _ & _ & _
        & Hs2 & _ & _ & Hin & _); try done; [apply Hwf1|].
  exists st2, snew. split_and!; try done.
  - simpl. rewrite dispatch_ProcedureDecl by done.
    rewrite (visit_ProcedureDecl_eq _ _ p st c sc) by done.
    unfold ProcedureDecl_inside.
    rewrite (bind_getattr _ _ _ _ _ Hparams), bind_iter_list.
    fold st1. fold psym. unfold bind at 1. rewrite Hrun.
    unfold ProcedureDecl_body. by rewrite (bind_getattr _ _ _ _ _ Hbody).
  - intros k Hk'. destruct (Hin k Hk') as (j & _ & Hj). eauto.
Qed.

(** X12: formal parameters and local variables live in the same table: when the
    first declaration of a procedure's block declares a variable with the
    name of one of the formal parameters, visiting the procedure raises
    DuplicateIdentifier at that variable's token. *)
Theorem local_named_like_parameter_is_duplicate fuel node p params decls
    body local rest type_node var_node ty x token st c sc :
  type_name node = "ProcedureDecl" →
  attr node "procName" = Some (VStr p) →
  attr node "params" = Some (VList params) →
  attr node "blockNode" = Some body →
  Forall2 param_shape params decls →
  type_name body = "Block" →
  attr body "declarations" = Some (VList (local :: rest)) →
  type_name local = "VarDecl" →
  attr local "type_node" = Some type_node →
  attr type_node "value" = Some (VStr ty) →
  attr local "var_node" = Some var_node →
  attr var_node "value" = Some (VStr x) →
  attr var_node "token" = Some token →
  x ∈ decls.*1 →
  wf st → current_scope st = Some c → scope_heap st !! c = Some sc →
  ∃ st', visit (S (S (S fuel))) node st
         = Raised (SemanticError DUPLICATE_ID token) st'.
Proof.
  intros Hk Hp Hparams Hbody Hshapes Hkb Hdecls Hkl Htn Hty Hvn Hx Htok Hin
    Hwf Hc Hs.
  destruct (visit_ProcedureDecl_params (S (S fuel)) node p params decls body st c sc)
    as (st2 & snew & Heq & Hc2 & Hwf2 & Hs2 & Hbound & _); try done.
  destruct (visit_VarDecl_eq local type_node var_node ty x token st2
              (length (scope_heap st)) snew)
    as (type_symbol & _ & Hlocal); try done.
  destruct (Hbound x Hin) as [old Hold]. rewrite Hold in Hlocal.
  eexists. rewrite Heq. unfold bind at 1.
  change (visit (S (S fuel)) body st2)
    with (dispatch (visit (S fuel)) body st2).
  rewrite dispatch_Block by done. unfold visit_Block.
  rewrite (bind_getattr _ _ _ _ _ Hdecls), bind_iter_list.
  unfold bind at 1. simpl for_each. unfold bind at 1.
  change (visit (S fuel) local st2) with (dispatch (visit fuel) local st2).
  rewrite dispatch_VarDecl by done. rewrite Hlocal. reflexivity.
Qed.

(** The loop over the formal parameters checks nothing: parameters that
    share a name are all accepted, and the name ends up bound to the symbol
    of the last of them. *)
Lemma declare_params_last_wins psym p new params decls :
  Forall2 param_shape params decls →
  ∀ st ps snew,
  current_scope st = Some new → scope_heap st !! new = Some snew →
  sym_heap st !! psym = Some (ProcedureSymbol p ps) → chain_wf st →
  ∃ st2 snew2,
    for_each params (declare_param "type_node" psym) st = Done tt st2 ∧
    scope_heap st2 !! new = Some snew2 ∧
    ∀ j x, decls.*1 !! j = Some x →
           (∀ j', j < j' → decls.*1 !! j' ≠ Some x) →
           _symbols snew2 !! x = Some (length (sym_heap st) + j).
Proof.
  induction 1 as [|param decl params decls Hshape Hshapes IH];
    intros st ps snew Hc Hs Hp Hwf.
  - exists st, snew. by split_and!.
  - destruct (declare_param_eq psym p ps new snew param decl st)
      as (t & Hlk & Hstep); try done.
    set (base := length (sym_heap st)) in *.
    set (st1 := param_declared psym p ps new snew decl.1 t st) in *.
    pose proof (lookup_lt_Some _ _ _ Hp) as Hpsym.
    pose proof (lookup_lt_Some _ _ _ Hs) as Hnew.
    assert (length (sym_heap st1) = S base) as Hlen1.
    { simpl. rewrite length_insert, length_app. simpl. lia. }
    assert (scope_heap st1 !! new = Some (with_symbol snew decl.1 base)) as Hs1.
    { simpl. by apply list_lookup_insert_eq. }
    assert (sym_heap st1 !! psym = Some (ProcedureSymbol p (ps ++ [base]))) as Hp1.
    { simpl. apply list_lookup_insert_eq. rewrite length_app. lia. }
    assert (chain_wf st1) as Hwf1.
    { by apply (chain_wf_with_scope new snew). }
    destruct (IH st1 (ps ++ [base])%list (with_symbol snew decl.1 base))
      as (st2 & snew2 & Hrun & Hs2 & Hlast); try done.
    destruct (declare_params_spec psym p new params decls Hshapes st1
                (ps ++ [base])%list (with_symbol snew decl.1 base))
      as (st2' & snew2' & Hrun' & _ & _ & _ & _ & _ & _ & _ & Hs2' & _
          & Hout & _); try done.
    assert (st2' = st2) as -> by congruence.
    assert (snew2' = snew2) as -> by congruence.
    exists st2, snew2.
    split. { simpl. unfold bind. by rewrite Hstep. }
    split; [done|].
    intros j x Hj Hmax. rewrite fmap_cons in Hj, Hmax.
    destruct j as [|j]; simpl in Hj.
    + injection Hj as <-. rewrite Hout.
      * simpl. rewrite lookup_insert_eq. f_equal. lia.
      * intros Hin. apply list_elem_of_lookup in Hin as [j' Hj'].
        by apply (Hmax (S j')); [lia|].
    + rewrite (Hlast j x Hj).
      * rewrite Hlen1. f_equal. lia.
      * intros j' Hlt. apply (Hmax (S j')). lia.
Qed.

(** X13: visiting a ProcedureDecl whose formal parameters repeat a name raises
    nothing for that: the body is visited all the same, in a scope where
    each parameter name is bound to the VariableSymbol of the last
    parameter that has this name. *)
Theorem duplicate_parameters_last_wins fuel node p params decls body st c sc :
  type_name node = "ProcedureDecl" →
  attr node "procName" = Some (VStr p) →
  attr node "params" = Some (VList params) →
  attr node "blockNode" = Some body →
  Forall2 param_shape params decls →
  wf st → current_scope st = Some c → scope_heap st !! c = Some sc →
  ∃ st2 snew,
    visit (S fuel) node st = (visit fuel body ;; leave_scope) st2 ∧
    current_scope st2 = Some (length (scope_heap st)) ∧
    scope_heap st2 !! length (scope_heap st) = Some snew ∧
    ∀ j x, decls.*1 !! j = Some x →
           (∀ j', j < j' → decls.*1 !! j' ≠ Some x) →
           _symbols snew !! x = Some (length (sym_heap st) + 3 + j).
Proof.
  intros Hk Hp Hparams Hbody Hshapes Hwf Hc Hs.
  destruct (visit_ProcedureDecl_params fuel node p params decls body st c sc)
    as (st2 & snew & Heq & Hc2 & Hwf2 & Hs2 & _ & Hrun); try done.
  set (st1 := entered p (scope_level sc + 1) (declared p c sc st)) in *.
  assert (current_scope st1 = Some (length (scope_heap st))) as Hc1
    by (simpl; by rewrite length_insert).
  assert (wf st1) as Hwf1.
  { eapply (ev_wf 0 0); [apply evolves_entered; lia|]. by apply wf_declared. }
  assert (is_Some (scope_heap st1 !! length (scope_heap st))) as [snew0 Hs1].
  { apply lookup_lt_is_Some_2. simpl. rewrite length_app, length_insert.
    simpl. lia. }
  assert (sym_heap st1 !! length (sym_heap st) = Some (ProcedureSymbol p [])) as Hp1.
  { simpl. rewrite lookup_app_l by (rewrite length_app; simpl; lia).
    rewrite lookup_app_r by done. by rewrite Nat.sub_diag. }
  assert (length (sym_heap st1) = length (sym_heap st) + 3) as Hlen1.
  { simpl. rewrite !length_app. simpl. lia. }
  destruct (declare_params_last_wins (length (sym_heap st)) p
              (length (scope_heap st)) params decls Hshapes st1 [] snew0)
    as (st2' & snew' & Hrun' & Hs2' & Hlast); try done; [apply Hwf1|].
  assert (st2' = st2) as -> by congruence.
  assert (snew' = snew) as -> by congruence.
  exists st2, snew. split_and!; try done.
  intros j x Hj Hmax. rewrite (Hlast j x Hj Hmax). by rewrite Hlen1.
Qed.

(** ** Where an exception leaves the analyzer *)

Section Raises.

Context (nc : nat) (c : option addr).

Lemma raises_pure {A} (m : M A) Q : pure_with m Q → raises_in nc c m.
Proof.
  intros Hm st _ Hc e st' H. specialize (Hm st). rewrite H in Hm.
  left. congruence.
Qed.

Lemma raises_bind {A B} (m : M A) (k : A → M B) :
  sound 0 nc c m → raises_in nc c m → (∀ a, raises_in nc c (k a)) →
  raises_in nc c (bind m k).
Proof.
  intros Hs Hm Hk st Hnc Hc e st' H.
  apply bind_Raised in H as [H|(a & st1 & Hdone & H)]; [by eapply Hm|].
  specialize (Hs st (Nat.le_0_l _) Hnc Hc). rewrite Hdone in Hs.
  destruct Hs as [Hev Hc1]. pose proof (ev_scope_len _ _ _ _ _ Hev).
  eapply (Hk a st1); [lia | done | done].
Qed.

Lemma raises_bind_pure {A B} (m : M A) (k : A → M B) Q :
  pure_with m Q → (∀ a, Q a → raises_in nc c (k a)) →
  raises_in nc c (bind m k).
Proof.
  intros Hm Hk st Hnc Hc e st' H.
  eapply bind_pure_Raised in H as [->|(a & Ha & H)]; [by left | | done].
  by eapply (Hk a Ha st).
Qed.

Lemma raises_on_current {B} attr (k : addr → M B) :
  (∀ a, c = Some a → raises_in nc c (k a)) →
  raises_in nc c (bind (current_scope_obj attr) k).
Proof.
  intros Hk st Hnc Hc e st'. unfold bind, current_scope_obj.
  destruct (current_scope st) as [a|] eqn:Ha.
  - apply Hk; congruence.
  - intros [= _ <-]. left. congruence.
Qed.

Lemma raises_get_current {B} (k : option addr → M B) :
  raises_in nc c (k c) → raises_in nc c (bind get_current_scope k).
Proof.
  intros Hk st Hnc Hc e st'. unfold bind, get_current_scope. rewrite Hc.
  by apply Hk.
Qed.

Lemma raises_for_each {A} (l : list A) (body : A → M unit) :
  (∀ x, sound 0 nc c (body x)) → (∀ x, raises_in nc c (body x)) →
  raises_in nc c (for_each l body).
Proof.
  intros Hs Hb. induction l as [|x l IH]; simpl.
  - eapply raises_pure, pure_ret.
  - apply raises_bind; [apply Hs | apply Hb | intros _; apply IH].
Qed.

Lemma raises_bind_new_Symbol {B} s (k : addr → M B) :
  (∀ a, raises_in nc c (k a)) → raises_in nc c (bind (new_Symbol s) k).
Proof.
  intros Hk st Hnc Hc e st'. rewrite bind_new_Symbol. by apply Hk.
Qed.

Lemma raises_insert a symbol : raises_in nc c (insert a symbol).
Proof. intros st _ _ e st' H. by apply insert_not_Raised in H. Qed.

Lemma raises_params_append proc_symbol var_symbol :
  raises_in nc c (params_append proc_symbol var_symbol).
Proof.
  intros st _ Hc e st'. unfold params_append.
  destruct (sym_heap st !! proc_symbol) as [[| |]|]; try done;
    intros [= _ <-]; by left.
Qed.

Lemma raises_leave_scope : raises_in nc c leave_scope.
Proof.
  unfold leave_scope.
  eapply raises_bind_pure; [apply pure_current_scope_obj | intros a _].
  eapply raises_bind_pure; [apply pure_scope_at' | intros s _].
  by intros st _ _ e st' H.
Qed.

End Raises.

Lemma raises_push nc c {B} name kind level enclosing (k : addr → M B) :
  (∀ new, nc ≤ new → raises_in nc (Some new) (k new)) →
  raises_in nc c
    (bind (ScopedSymbolTable_.__init__ name kind level enclosing)
          (λ new, bind (set_current_scope (Some new)) (λ _, k new))).
Proof.
  intros Hk st Hnc Hc e st'. rewrite bind_init, bind_set_current_scope.
  intros H. right.
  eapply (Hk (length (scope_heap st)) Hnc) in H;
    [| simpl; rewrite length_app; lia | done].
  destruct H as [H|H]; [eauto | done].
Qed.

Ltac raises_step visit_ok visit_raises :=
  lazymatch goal with
  | |- raises_in _ _ (ret _) => eapply raises_pure, pure_ret
  | |- raises_in _ _ (raise _) => eapply raises_pure, (pure_raise _ (λ _, True))
  | |- raises_in _ _ (error _ _) => eapply raises_pure, (pure_raise _ (λ _, True))
  | |- raises_in _ _ (insert _ _) => apply raises_insert
  | |- raises_in _ _ (params_append _ _) => apply raises_params_append
  | |- raises_in _ _ leave_scope => apply raises_leave_scope
  | |- raises_in _ _ (for_each _ _) => apply raises_for_each; intros ?
  | |- raises_in _ _ (bind (current_scope_obj _) (λ _, bind (enclosingScope _) _)) =>
      eapply raises_bind_pure; [apply pure_current_scope_obj | intros ? _];
      eapply raises_bind_pure; [apply (pure_raise _ (λ _, False)) | intros ? []]
  | |- raises_in _ _ (bind (current_scope_obj _) _) =>
      apply raises_on_current; intros ? ?; simplify_eq
  | |- raises_in _ _ (bind get_current_scope _) => apply raises_get_current
  | |- raises_in _ _ (bind (new_Symbol _) _) =>
      apply raises_bind_new_Symbol; intros ?
  | |- raises_in _ _ (bind (ScopedSymbolTable_.__init__ _ _ _ _) _) =>
      apply raises_push; intros ? ?
  | |- raises_in _ _ (bind _ _) =>
      first [ eapply raises_bind_pure;
                [first [pure_step | apply pure_missing_return_check] | intros ? ?]
            | apply raises_bind; [| | intros ?] ]
  | |- raises_in _ _ (match ?x with _ => _ end) => destruct x
  | |- raises_in _ _ _ => apply visit_raises
  | |- sound _ _ _ _ => sound_step visit_ok
  end.

Section HandlersRaise.

Variable visit : pyval → M unit.
Hypothesis visit_ok : ∀ ns nc c node, sound ns nc c (visit node).
Hypothesis visit_raises : ∀ nc c node, raises_in nc c (visit node).

Lemma declare_param_raises nc a type_attr proc_symbol param :
  raises_in nc (Some a) (declare_param type_attr proc_symbol param).
Proof.
  unfold declare_param. repeat raises_step visit_ok visit_raises.
Qed.

Lemma dispatch_raises nc c node : raises_in nc c (dispatch visit node).
Proof.
  unfold dispatch.
  destruct (find_method (type_name node) (methods visit)) as [m|] eqn:Hm;
    [|eapply raises_pure, pure_ret].
  unfold methods in Hm. simpl in Hm.
  repeat match type of Hm with
         | (if ?b then _ else _) = _ => destruct b
         end; try discriminate; injection Hm as <-.
  all: unfold visit_Block, visit_Program, visit_Compound, visit_NoOp,
         visit_Type, visit_BinOp, visit_ProcedureDecl, visit_FunctionDecl,
         visit_VarDecl, visit_Var, visit_Num, visit_UnaryOp,
         visit_ProcedureCall, visit_Call, visit_Condition, visit_Then,
         visit_MyElse, visit_While, visit_MyDo; unfold visit_Type.
  all: try (repeat first
              [ apply declare_param_raises
              | apply declare_param_sound; lia
              | raises_step visit_ok visit_raises ]; fail).
  (* Assign: the test selects the ordinary branch *)
  unfold visit_Assign. do 4 raises_step visit_ok visit_raises.
  eapply raises_bind_pure; [apply assign_test_false | intros b ->].
  repeat raises_step visit_ok visit_raises.
Qed.

End HandlersRaise.

Lemma visit_raises fuel : ∀ nc c node, raises_in nc c (visit fuel node).
Proof.
  induction fuel as [|fuel IH]; intros nc c node; simpl.
  - by intros st _ _ e st' H.
  - apply dispatch_raises; [apply visit_sound | apply IH].
Qed.

(** X14: nothing is undone when an exception propagates.  When the visit of a
    Program, ProcedureDecl or FunctionDecl raises after its scope was
    pushed, the analyzer's current scope is left at a scope table created
    during the visit, not at the scope in which the visit started. *)
Theorem exception_abandons_scope fuel node st e st' :
  type_name node = "Program" ∨ type_name node = "ProcedureDecl" ∨
    type_name node = "FunctionDecl" →
  wf st → visit fuel node st = Raised e st' →
  length (scope_heap st) < length (scope_heap st') →
  (∃ a, current_scope st' = Some a ∧ length (scope_heap st) ≤ a) ∧
  current_scope st' ≠ current_scope st.
Proof.
  intros Hk Hwf H Hgrew.
  assert (∃ a, current_scope st' = Some a ∧ length (scope_heap st) ≤ a) as Ha.
  2: { split; [done|]. destruct Ha as (a & Ha & Hle). intros Heq.
       rewrite Ha in Heq. symmetry in Heq.
       pose proof (wf_current _ Hwf a Heq). lia. }
  destruct fuel as [|fuel]; [done|]. simpl in H.
  assert (∀ {A} (m : M A) name level base,
            length (scope_heap base) = length (scope_heap st) →
            raises_in (length (scope_heap base))
              (Some (length (scope_heap base))) m →
            m (entered name level base) = Raised e st' →
            ∃ a, current_scope st' = Some a ∧ length (scope_heap st) ≤ a)
    as Hinside.
  { intros A m name level base Hlen Hm Hr.
    apply Hm in Hr as [Hr|Hr];
      [| | simpl; rewrite length_app; lia | done].
    - rewrite Hlen in Hr. eauto.
    - by rewrite Hlen in Hr. }
  destruct Hk as [Hk|[Hk|Hk]].
  - rewrite dispatch_Program, visit_Program_eq in H by done.
    eapply (Hinside _ _ _ _ st); [done | | exact H].
    unfold Program_inside.
    repeat raises_step (visit_sound fuel) (visit_raises fuel).
  - rewrite dispatch_ProcedureDecl in H by done.
    destruct (visit_ProcedureDecl_prefix (visit fuel) node st st')
      as [(p & c & sc & Hp & Hc & Hs)|[Heq _]];
      [by rewrite H | | rewrite Heq in Hgrew; lia].
    rewrite (visit_ProcedureDecl_eq _ _ p st c sc) in H by done.
    eapply (Hinside _ _ _ _ (declared p c sc st));
      [simpl; apply length_insert | | exact H].
    unfold ProcedureDecl_inside, ProcedureDecl_body.
    repeat first [ apply declare_param_raises; try apply visit_sound
                 | apply declare_param_sound; lia
                 | raises_step (visit_sound fuel) (visit_raises fuel) ].
  - rewrite dispatch_FunctionDecl in H by done.
    destruct (visit_FunctionDecl_prefix (visit fuel) node st st')
      as [(p & c & sc & Hp & Hc & Hs)|[Heq _]];
      [by rewrite H | | rewrite Heq in Hgrew; lia].
    rewrite (visit_FunctionDecl_eq _ _ p st c sc) in H by done.
    eapply (Hinside _ _ _ _ (declared p c sc st));
      [simpl; apply length_insert | | exact H].
    unfold FunctionDecl_inside, visit_Type.
    repeat first [ apply declare_param_raises; try apply visit_sound
                 | apply declare_param_sound; lia
                 | raises_step (visit_sound fuel) (visit_raises fuel) ].
Qed.

(** ** The further properties at work on the example programs *)

Lemma insert_then_lookup_witness :
  ∃ st', insert 1 0 Example.global = Done tt st' ∧
         lookup 1 "INTEGER" false st' = Done (Some 0) st'.
Proof.
  destruct (insert_then_lookup 1 0 (BuiltinTypeSymbol "INTEGER")
              Example.global_table Example.global eq_refl eq_refl)
    as (st' & Hins & _ & _ & Hlk & _).
  exists st'. split; [exact Hins | exact (Hlk false)].
Defined.

Lemma visit_Var_spec_witness :
  ∃ r, lookup 1 "x" false Example.global_with_x = Done r Example.global_with_x ∧
       visit 1 (Node.Var "x") Example.global_with_x =
         match r with
         | Some _ => Done tt Example.global_with_x
         | None => Raised (SemanticError ID_NOT_FOUND
                             (Node.Token "ID" (VStr "x"))) Example.global_with_x
         end.
Proof.
  apply (visit_Var_spec 0 (Node.Var "x") "x" (Node.Token "ID" (VStr "x"))
           Example.global_with_x 1).
  - reflexivity.
  - reflexivity.
  - reflexivity.
  - apply (chain_wf_with_scope 1 Example.global_table); [reflexivity | reflexivity |].
    apply wf_global.
  - reflexivity.
  - eexists. reflexivity.
Defined.

Lemma visit_Assign_spec_witness :
  ∃ r, lookup 1 "y" false Example.global = Done r Example.global ∧
       visit 2 (Node.Assign (Node.Var "y") (Node.IntNum 1)) Example.global =
         match r with
         | Some _ => visit 1 (Node.IntNum 1) Example.global
         | None => Raised (SemanticError ID_NOT_FOUND
                             (Node.Token "ASSIGN" (VStr ":="))) Example.global
         end.
Proof.
  apply (visit_Assign_spec 1 (Node.Assign (Node.Var "y") (Node.IntNum 1))
           (Node.Var "y") "y" (Node.Token "ASSIGN" (VStr ":=")) (Node.IntNum 1)
           Example.global 1 Example.global_table).
  - reflexivity.
  - reflexivity.
  - reflexivity.
  - reflexivity.
  - reflexivity.
  - apply wf_global.
  - reflexivity.
  - reflexivity.
  - reflexivity.
Defined.

Lemma visit_Compound_app_witness :
  ∃ e st',
    visit 3 (Node.Compound [Node.Assign (Node.Var "y") (Node.IntNum 1)])
      Example.global = Raised e st' ∧
    visit 3 (Node.Compound ([Node.Assign (Node.Var "y") (Node.IntNum 1)] ++
                            [Node.Assign (Node.Var "z") (Node.IntNum 2)]))
      Example.global = Raised e st'.
Proof.
  eexists _, _. split; [vm_compute; reflexivity|].
  apply (proj1 (visit_Compound_app 2
                  [Node.Assign (Node.Var "y") (Node.IntNum 1)]
                  [Node.Assign (Node.Var "z") (Node.IntNum 2)] Example.global)).
  vm_compute. reflexivity.
Defined.

Lemma declared_variable_resolves_witness :
  ∃ st' type_symbol,
    visit 1 Example.declare_x Example.global = Done tt st' ∧
    lookup 1 "x" false st' = Done (Some 4) st' ∧
    sym_heap st' !! 4 = Some (VarSymbol "x" type_symbol) ∧
    visit 1 (Node.Var "x") st' = Done tt st'.
Proof.
  apply (declared_variable_resolves 0 0 Example.declare_x (Node.Type_ "INTEGER")
           (Node.Var "x") "INTEGER" "x" (Node.Token "ID" (VStr "x"))
           (Node.Var "x") (Node.Token "ID" (VStr "x"))
           Example.global 1 Example.global_table).
  - reflexivity.
  - reflexivity.
  - reflexivity.
  - reflexivity.
  - reflexivity.
  - reflexivity.
  - reflexivity.
  - reflexivity.
  - reflexivity.
  - apply wf_global.
  - reflexivity.
  - reflexivity.
  - vm_compute. reflexivity.
Defined.

Lemma visit_frame_witness :
  ∃ st', visit 10 Example.procedure_p Example.global = Done tt st' ∧
         scope_heap st' !! 0 = scope_heap Example.global !! 0 ∧
         current_scope st' = current_scope Example.global.
Proof.
  eexists. split; [vm_compute; reflexivity|].
  match goal with
  | |- scope_heap ?st' !! 0 = _ ∧ _ =>
      destruct (visit_frame 10 Example.procedure_p Example.global st')
        as (_ & _ & _ & Hframe & _ & Hcur); [vm_compute; reflexivity|]
  end.
  split.
  - apply Hframe; [vm_compute; lia | discriminate].
  - apply (Hcur tt). vm_compute. reflexivity.
Defined.

Lemma visible_names_stay_visible_witness :
  ∃ st' r',
    visit 10 Example.procedure_p Example.global = Done tt st' ∧
    lookup 1 "INTEGER" false st' = Done (Some r') st'.
Proof.
  eexists. 
  match goal with
  | |- ∃ r', _ = Done tt ?st' ∧ _ =>
      assert (visit 10 Example.procedure_p Example.global = Done tt st') as Hrun
        by (vm_compute; reflexivity);
      destruct (visible_names_stay_visible 10 Example.procedure_p
                  Example.global st' "INTEGER" wf_global) with (a := 1) (r := 2)
        as [r' Hr']; [by rewrite Hrun | |]
  end.
  - vm_compute. reflexivity.
  - exists r'. split; [exact Hrun | exact Hr'].
Defined.

Lemma analysis_states_witness :
  ∃ st', ends (analyze 10 Example.program_with_duplicate) st' ∧
         ∃ r, lookup 1 "REAL" true st' = Done (Some r) st'.
Proof.
  eexists. split; [vm_compute; reflexivity|].
  match goal with
  | |- ∃ r, lookup _ _ _ ?st' = _ =>
      destruct (analysis_states 10 Example.program_with_duplicate st')
        as (_ & _ & Hb); [vm_compute; reflexivity|]
  end.
  apply (Hb 1 true). eexists. vm_compute. reflexivity.
Defined.

Lemma function_declarations_never_pass_witness :
  type_name Example.returning_function = "FunctionDecl" ∧
  visit 10 Example.returning_function Example.global ≠ Done tt Example.global.
Proof.
  split; [reflexivity|].
  apply (proj1 (function_declarations_never_pass Example.returning_function
                  eq_refl) 10 Example.global).
Defined.

Lemma ast_expr_analysis_witness :
  visit 2 (Ast.BinOp (Node.IntNum 1) (Node.Token "PLUS" (VStr "+"))
             (Node.IntNum 2)) Example.global
  = Done tt Example.global.
Proof.
  apply (ast_expr_analysis _ 1 false).
  - apply (ast_BinOp _ _ _ 0 0 false false); by apply ast_Num.
  - lia.
Defined.

Lemma unvisited_parts_do_not_matter_witness :
  visit 3 (VObj "While" [("condition", Node.IntNum 1);
                         ("myDo", Node.Assign (Node.Var "y") (Node.IntNum 1))])
    Example.global
  = visit 3 (VObj "While" [("condition", Node.IntNum 1); ("myDo", Node.NoOp)])
      Example.global.
Proof.
  apply unvisited_parts_do_not_matter. left. by repeat split.
Defined.

Lemma local_named_like_parameter_is_duplicate_witness :
  ∃ st',
    visit 3
      (Node.ProcedureDecl "p" [Node.Param (Node.Var "a") (Node.Type_ "INTEGER")]
         (Node.Block [Node.VarDecl (Node.Var "a") (Node.Type_ "REAL")]
            (Node.Compound [Node.NoOp])))
      Example.global
    = Raised (SemanticError DUPLICATE_ID (Node.Token "ID" (VStr "a"))) st'.
Proof.
  apply (local_named_like_parameter_is_duplicate 0 _ "p"
           [Node.Param (Node.Var "a") (Node.Type_ "INTEGER")]
           [("a", "INTEGER")]
           (Node.Block [Node.VarDecl (Node.Var "a") (Node.Type_ "REAL")]
              (Node.Compound [Node.NoOp]))
           (Node.VarDecl (Node.Var "a") (Node.Type_ "REAL")) []
           (Node.Type_ "REAL") (Node.Var "a") "REAL" "a"
           (Node.Token "ID" (VStr "a")) Example.global 1 Example.global_table).
  - reflexivity.
  - reflexivity.
  - reflexivity.
  - reflexivity.
  - repeat constructor; eexists _, _; repeat split; reflexivity.
  - reflexivity.
  - reflexivity.
  - reflexivity.
  - reflexivity.
  - reflexivity.
  - reflexivity.
  - reflexivity.
  - reflexivity.
  - apply list_elem_of_here.
  - apply wf_global.
  - reflexivity.
  - reflexivity.
Defined.

Lemma duplicate_parameters_last_wins_witness :
  ∃ st2 snew,
    visit 10
      (Node.ProcedureDecl "p"
         [Node.Param (Node.Var "a") (Node.Type_ "INTEGER");
          Node.Param (Node.Var "a") (Node.Type_ "REAL")]
         (Node.Block [] (Node.Compound [Node.NoOp])))
      Example.global
    = (visit 9 (Node.Block [] (Node.Compound [Node.NoOp])) ;; leave_scope) st2 ∧
    scope_heap st2 !! 2 = Some snew ∧
    _symbols snew !! "a" = Some 8.
Proof.
  destruct (duplicate_parameters_last_wins 9
              (Node.ProcedureDecl "p"
                 [Node.Param (Node.Var "a") (Node.Type_ "INTEGER");
                  Node.Param (Node.Var "a") (Node.Type_ "REAL")]
                 (Node.Block [] (Node.Compound [Node.NoOp])))
              "p"
              [Node.Param (Node.Var "a") (Node.Type_ "INTEGER");
               Node.Param (Node.Var "a") (Node.Type_ "REAL")]
              [("a", "INTEGER"); ("a", "REAL")]
              (Node.Block [] (Node.Compound [Node.NoOp]))
              Example.global 1 Example.global_table)
    as (st2 & snew & Heq & _ & Hs & Hlast).
  - reflexivity.
  - reflexivity.
  - reflexivity.
  - reflexivity.
  - repeat constructor; eexists _, _; repeat split; reflexivity.
  - apply wf_global.
  - reflexivity.
  - reflexivity.
  - exists st2, snew. split; [exact Heq|]. split; [exact Hs|].
    apply (Hlast 1 "a"); [reflexivity|].
    intros [|[|[|j']]] Hlt; try lia; discriminate.
Defined.

Lemma exception_abandons_scope_witness :
  ∃ e st',
    visit 10 Example.program_with_duplicate Example.initial = Raised e st' ∧
    current_scope st' ≠ current_scope Example.initial.
Proof.
  eexists _, _. split; [vm_compute; reflexivity|].
  match goal with
  | |- current_scope ?st' ≠ _ =>
      refine (proj2 (exception_abandons_scope 10 Example.program_with_duplicate
                       Example.initial _ st' (or_introl eq_refl) wf_initial _ _))
  end.
  - vm_compute. reflexivity.
  - vm_compute. lia.
Defined.

(** ** A function declaration whose body is accepted *)


